(** * core-js-101, [src/05-objects-tasks.js]: objects, JSON and the CSS selector builder

    A shallow embedding of the module's functions ([Rectangle], [getJSON],
    [fromJSON], the class [MySuperBaseElementSelector] and the facade
    [cssSelectorBuilder]) together with the properties of its specification.

    The strings of the selector builder are modelled by [string], one
    [ascii] per code unit (code units below 256); JSON text and the
    strings in it are sequences of UTF-16 code units.  Objects that the
    program mutates and passes around live in an explicit heap; a method
    receives the location of [this]. *)

From Stdlib Require Import ZArith NArith String Ascii List Lia Bool Floats.
From Stdlib Require Decimal DecimalFacts DecimalPos DecimalN.
From stdpp Require Import base option list strings.

Local Open Scope string_scope.
Local Open Scope list_scope.
Local Open Scope Z_scope.

(** * The program *)

(** ** JavaScript values and the conversions the module relies on *)

Module JS.

(** The values the selector class stores: numbers pushed on [order],
    strings, and arrays of strings. *)
Inductive value :=
| Num (n : Z)
| Str (s : string)
| Arr (a : list string).

(** [ToBoolean]: what [if (v)] tests.  An array is an object, hence truthy
    even when empty; a string is truthy when it is not empty. *)
Definition truthy (v : value) : bool :=
  match v with
  | Num n => negb (n =? 0)
  | Str s => negb (String.eqb s "")
  | Arr _ => true
  end.

(** [Array.prototype.join] on an array of strings. *)
Fixpoint join (sep : string) (a : list string) : string :=
  match a with
  | [] => ""
  | [x] => x
  | x :: rest => x +:+ sep +:+ join sep rest
  end.

(** The mathematical value of a numeric string before it is rounded to a
    binary64 number: [Finite neg m e] stands for (-1)^neg * m * 10^e. *)
Inductive Number :=
| NaN
| Infinity (negative : bool)
| Finite (negative : bool) (m : N) (e : Z).

Definition StrWhiteSpaceChar (c : ascii) : bool :=
  let n := N_of_ascii c in
  ((9 <=? n) && (n <=? 13) || (n =? 32) || (n =? 160))%N.

Fixpoint trim_start (l : list ascii) : list ascii :=
  match l with
  | c :: l' => if StrWhiteSpaceChar c then trim_start l' else l
  | [] => []
  end.

Definition trim (l : list ascii) : list ascii :=
  rev (trim_start (rev (trim_start l))).

(** The value of a digit in the given radix, if the character is one. *)
Definition digit_value (radix : N) (c : ascii) : option N :=
  let n := N_of_ascii c in
  let v := (if (48 <=? n) && (n <=? 57) then Some (n - 48)
            else if (97 <=? n) && (n <=? 102) then Some (n - 87)
            else if (65 <=? n) && (n <=? 70) then Some (n - 55)
            else None)%N in
  match v with
  | Some d => if (d <? radix)%N then Some d else None
  | None => None
  end.

(** Reads the longest prefix of digits: the number read (continuing from
    [acc]), how many digits were read, and what follows them. *)
Fixpoint digits (radix : N) (acc : N) (count : nat) (l : list ascii)
  : N * nat * list ascii :=
  match l with
  | c :: l' =>
      match digit_value radix c with
      | Some d => digits radix (acc * radix + d)%N (S count) l'
      | None => (acc, count, l)
      end
  | [] => (acc, count, [])
  end.

Definition sign (l : list ascii) : bool * list ascii :=
  match l with
  | "+"%char :: r => (false, r)
  | "-"%char :: r => (true, r)
  | _ => (false, l)
  end.

(** [NonDecimalIntegerLiteral] after its prefix: digits up to the end. *)
Definition NonDecimalIntegerLiteral (radix : N) (l : list ascii) : Number :=
  match digits radix 0 0 l with
  | (m, S _, []) => Finite false m 0
  | _ => NaN
  end.

(** [StrDecimalLiteral]: an optional sign, then [Infinity] or decimal
    digits with an optional fraction and an optional exponent. *)
Definition StrDecimalLiteral (l : list ascii) : Number :=
  let '(neg, l) := sign l in
  if String.eqb (string_of_list_ascii l) "Infinity" then Infinity neg else
  let '(ip, ni, r1) := digits 10 0 0 l in
  let '(m, nf, r2) :=
    match r1 with
    | "."%char :: r => digits 10 ip 0 r
    | _ => (ip, 0%nat, r1)
    end in
  if (ni + nf =? 0)%nat then NaN else
  match r2 with
  | [] => Finite neg m (- Z.of_nat nf)
  | c :: r3 =>
      if Ascii.eqb c "e" || Ascii.eqb c "E" then
        let '(eneg, r4) := sign r3 in
        match digits 10 0 0 r4 with
        | (ev, S _, []) =>
            Finite neg m ((if eneg then - Z.of_N ev else Z.of_N ev) - Z.of_nat nf)
        | _ => NaN
        end
      else NaN
  end.

(** [StringToNumber]: white space is trimmed, the empty string is 0, and
    anything outside the grammar of numeric strings is [NaN]. *)
Definition StringToNumber (s : string) : Number :=
  match trim (list_ascii_of_string s) with
  | [] => Finite false 0 0
  | ("0"%char :: c :: r) as l =>
      if Ascii.eqb c "x" || Ascii.eqb c "X" then NonDecimalIntegerLiteral 16 r
      else if Ascii.eqb c "o" || Ascii.eqb c "O" then NonDecimalIntegerLiteral 8 r
      else if Ascii.eqb c "b" || Ascii.eqb c "B" then NonDecimalIntegerLiteral 2 r
      else StrDecimalLiteral l
  | l => StrDecimalLiteral l
  end.

(** [ToPrimitive] then [ToNumber]: an array converts through its
    [toString], which joins the elements with a comma. *)
Definition ToNumber (v : value) : Number :=
  match v with
  | Num n => Finite (n <? 0) (Z.abs_N n) 0
  | Str s => StringToNumber s
  | Arr a => StringToNumber (join "," a)
  end.

(** [x > k] for an integer literal [0 < k < 2^52] on the right, as are the
    literals 2 to 5 of the class.  The left operand is first rounded to the
    nearest binary64 number, ties to even, and [k] has an even significand:
    the rounded value is above [k] exactly when the mathematical value is
    above [k] plus half the gap between [k] and the next binary64 number,
    that is above (k * 2^53 + 2^log2(k)) / 2^53.  [NaN] compares false. *)
Definition gt (x : Number) (k : Z) : bool :=
  match x with
  | NaN => false
  | Infinity negative => negb negative
  | Finite true _ _ => false
  | Finite false m e =>
      let bound := k * 2 ^ 53 + 2 ^ Z.log2 k in
      if 0 <=? e then bound <? Z.of_N m * 10 ^ e * 2 ^ 53
      else bound * 10 ^ (- e) <? Z.of_N m * 2 ^ 53
  end.

End JS.

(** ** The heap of selector objects and the monad of method bodies *)

(** [new Error(message)]. *)
Record Error := mkError { message : string }.

(** The object literal [this.builder] of the constructor. *)
Module Builder.
Record t := mk {
  element : string;
  id : string;
  class : list string;
  attr : string;
  pseudoClass : list string;
  pseudoElement : string;
  combiner : list string;
}.

(** The own keys of the object, in creation order ([Object.keys]). *)
Inductive key :=
| Kelement | Kid | Kclass | Kattr | KpseudoClass | KpseudoElement | Kcombiner.

Definition keys : list key :=
  [Kelement; Kid; Kclass; Kattr; KpseudoClass; KpseudoElement; Kcombiner].

(** [builder[key]] *)
Definition get (b : t) (k : key) : JS.value :=
  match k with
  | Kelement => JS.Str (element b)
  | Kid => JS.Str (id b)
  | Kclass => JS.Arr (class b)
  | Kattr => JS.Str (attr b)
  | KpseudoClass => JS.Arr (pseudoClass b)
  | KpseudoElement => JS.Str (pseudoElement b)
  | Kcombiner => JS.Arr (combiner b)
  end.

Definition set_element (v : string) (b : t) : t :=
  mk v (id b) (class b) (attr b) (pseudoClass b) (pseudoElement b) (combiner b).
Definition set_id (v : string) (b : t) : t :=
  mk (element b) v (class b) (attr b) (pseudoClass b) (pseudoElement b) (combiner b).
Definition push_class (v : string) (b : t) : t :=
  mk (element b) (id b) (class b ++ [v]) (attr b) (pseudoClass b) (pseudoElement b)
     (combiner b).
Definition set_attr (v : string) (b : t) : t :=
  mk (element b) (id b) (class b) v (pseudoClass b) (pseudoElement b) (combiner b).
Definition push_pseudoClass (v : string) (b : t) : t :=
  mk (element b) (id b) (class b) (attr b) (pseudoClass b ++ [v]) (pseudoElement b)
     (combiner b).
Definition set_pseudoElement (v : string) (b : t) : t :=
  mk (element b) (id b) (class b) (attr b) (pseudoClass b) v (combiner b).
Definition push_combiner (v : string) (b : t) : t :=
  mk (element b) (id b) (class b) (attr b) (pseudoClass b) (pseudoElement b)
     (combiner b ++ [v]).
End Builder.

(** What a method pushes on [this.order]: a number, a string, or the array
    object held in a field of [this.builder].  The array is pushed by
    reference, so the entry shows every later push to that array. *)
Inductive order_item :=
| Onumber (n : Z)
| Ostring (s : string)
| Oarray (k : Builder.key).

(** The fields of an instance of [MySuperBaseElementSelector]. *)
Record Selector := mkSelector {
  builder : Builder.t;
  order : list order_item;
}.

Definition with_builder (f : Builder.t -> Builder.t) (o : Selector) : Selector :=
  mkSelector (f (builder o)) (order o).
Definition order_push (x : order_item) (o : Selector) : Selector :=
  mkSelector (builder o) (order o ++ [x]).

(** The value an entry of [order] denotes in the current state of [o]. *)
Definition order_value (o : Selector) (x : order_item) : JS.value :=
  match x with
  | Onumber n => JS.Num n
  | Ostring s => JS.Str s
  | Oarray k => Builder.get (builder o) k
  end.

(** [this.order[i] > k]; an index out of range reads [undefined], whose
    number is [NaN]. *)
Definition order_gt (o : Selector) (i : nat) (k : Z) : bool :=
  match order o !! i with
  | Some x => JS.gt (JS.ToNumber (order_value o x)) k
  | None => false
  end.

Abbreviation loc := nat.
Abbreviation heap := (list Selector).

(** How the evaluation of a method body ends.  A thrown error leaves the
    heap as it is at the [throw].  [Dangling] is the model's answer for a
    location that holds no object, which no JavaScript reference is. *)
Inductive completion (A : Type) :=
| Normal (a : A) (h : heap)
| Throw (e : Error) (h : heap)
| Dangling.
Arguments Normal {A} a h.
Arguments Throw {A} e h.
Arguments Dangling {A}.

Definition M (A : Type) : Type := heap -> completion A.

#[export] Instance M_ret : MRet M := fun A a h => Normal a h.
#[export] Instance M_bind : MBind M := fun A B f m h =>
  match m h with
  | Normal a h' => f a h'
  | Throw e h' => Throw e h'
  | Dangling => Dangling
  end.

Definition throw {A} (e : Error) : M A := fun h => Throw e h.

(** Reads the object at [l]. *)
Definition deref (l : loc) : M Selector := fun h =>
  match h !! l with
  | Some o => Normal o h
  | None => Dangling
  end.

(** Updates the object at [l] in place. *)
Definition update (l : loc) (f : Selector -> Selector) : M unit := fun h =>
  match h !! l with
  | Some o => Normal tt (<[l := f o]> h)
  | None => Dangling
  end.

(** Allocates an object and returns its location. *)
Definition alloc (o : Selector) : M loc := fun h => Normal (length h) (h ++ [o]).

(** ** class MySuperBaseElementSelector *)

Module MySuperBaseElementSelector.

(** [constructor()]: the fields of a fresh instance. *)
Definition constructor : Selector :=
  mkSelector (Builder.mk "" "" [] "" [] "" []) [].

(** [new MySuperBaseElementSelector()] *)
Definition new : M loc := alloc constructor.

Definition element (this : loc) (value : string) : M loc :=
  o ← deref this;
  if JS.truthy (JS.Str (Builder.element (builder o))) then
    throw (mkError "Element value should be unique")
  else if (0 <? length (order o))%nat then
    throw (mkError "Wrong order")
  else
    update this (with_builder (Builder.set_element value));;
    update this (order_push (Onumber 1));;
    mret this.

Definition id (this : loc) (value : string) : M loc :=
  o ← deref this;
  if JS.truthy (JS.Str (Builder.id (builder o))) then
    throw (mkError "Id value should be unique")
  else if (0 <? length (order o))%nat && order_gt o 0 2 then
    throw (mkError "Wrong order")
  else
    update this (with_builder (Builder.set_id ("#" +:+ value)));;
    update this (order_push (Onumber 2));;
    mret this.

Definition class (this : loc) (value : string) : M loc :=
  o ← deref this;
  if (0 <? length (order o))%nat && order_gt o 0 3 then
    throw (mkError "Wrong order")
  else
    update this (with_builder (Builder.push_class ("." +:+ value)));;
    update this (order_push (Oarray Builder.Kclass));;
    mret this.

Definition attr (this : loc) (value : string) : M loc :=
  o ← deref this;
  if (0 <? length (order o))%nat && order_gt o 0 4 then
    throw (mkError "Wrong order")
  else
    update this (with_builder (Builder.set_attr ("[" +:+ value +:+ "]")));;
    o ← deref this;
    update this (order_push (Ostring (Builder.attr (builder o))));;
    mret this.

Definition pseudoClass (this : loc) (value : string) : M loc :=
  o ← deref this;
  if (0 <? length (order o))%nat && order_gt o 0 5 then
    throw (mkError "Wrong order")
  else
    update this (with_builder (Builder.push_pseudoClass (":" +:+ value)));;
    update this (order_push (Oarray Builder.KpseudoClass));;
    mret this.

Definition pseudoElement (this : loc) (value : string) : M loc :=
  o ← deref this;
  if JS.truthy (JS.Str (Builder.pseudoElement (builder o))) then
    throw (mkError "PseudoElement value should be unique")
  else
    update this (with_builder (Builder.set_pseudoElement ("::" +:+ value)));;
    o ← deref this;
    update this (order_push (Ostring (Builder.pseudoElement (builder o))));;
    mret this.

(** The callback of [keys.forEach] in [stringify], on the object [o] that
    [this] denotes: appends the field [key] to [selector] when truthy. *)
Definition append_key (o : Selector) (selector : string) (key : Builder.key) : string :=
  let v := Builder.get (builder o) key in
  if JS.truthy v then
    match v with
    | JS.Arr a => selector +:+ JS.join "" a
    | JS.Str s => selector +:+ s
    | JS.Num _ => selector
    end
  else selector.

Definition stringify (this : loc) : M string :=
  o ← deref this;
  let selector := "" in
  if (0 <? length (Builder.combiner (builder o)))%nat then
    mret (selector +:+ JS.join " " (Builder.combiner (builder o)))
  else
    mret (fold_left (append_key o) Builder.keys selector).

Definition combine (this : loc) (selector1 : loc) (combinator : string) (selector2 : loc)
  : M loc :=
  s1 ← stringify selector1;
  update this (with_builder (Builder.push_combiner s1));;
  update this (with_builder (Builder.push_combiner combinator));;
  s2 ← stringify selector2;
  update this (with_builder (Builder.push_combiner s2));;
  mret this.

End MySuperBaseElementSelector.

(** ** The facade [cssSelectorBuilder] *)

Module cssSelectorBuilder.
Import MySuperBaseElementSelector.

Definition element (value : string) : M loc :=
  this ← new; MySuperBaseElementSelector.element this value.
Definition id (value : string) : M loc :=
  this ← new; MySuperBaseElementSelector.id this value.
Definition class (value : string) : M loc :=
  this ← new; MySuperBaseElementSelector.class this value.
Definition attr (value : string) : M loc :=
  this ← new; MySuperBaseElementSelector.attr this value.
Definition pseudoClass (value : string) : M loc :=
  this ← new; MySuperBaseElementSelector.pseudoClass this value.
Definition pseudoElement (value : string) : M loc :=
  this ← new; MySuperBaseElementSelector.pseudoElement this value.
Definition combine (selector1 : loc) (combinator : string) (selector2 : loc) : M loc :=
  this ← new; MySuperBaseElementSelector.combine this selector1 combinator selector2.

End cssSelectorBuilder.

(** ** The built-in JSON object on data *)

Module JSON.

#[local] Set Warnings "-register-all".
#[local] Open Scope N_scope.

(** The built-in [JSON] object, after ECMAScript, on the values JSON text
    denotes.  A String value is a sequence of UTF-16 code units.  A Number
    value is a binary64 number, given by its sign, significand and
    exponent as in the Standard Library's specification of floating-point
    arithmetic.  The members of an object are its own enumerable
    properties in the order in which the object enumerates them. *)
Abbreviation text := (list N).

(** The String value of a literal of this file. *)
Definition code_units (s : string) : text := map N_of_ascii (list_ascii_of_string s).

Inductive value :=
| JNull
| JBool (b : bool)
| JNumber (x : spec_float)
| JString (s : text)
| JArray (elements : list value)
| JObject (members : list (text * value)).

(** How a parse ends.  [OutOfFuel] is the answer of the recursive descent
    when its fuel runs out; with the fuel that [parse] gives it never does
    ([JSONFacts.parse_text_ends]). *)
Inductive result (A : Type) :=
| Parsed (a : A)
| SyntaxError
| OutOfFuel.
Arguments Parsed {A} a.
Arguments SyntaxError {A}.
Arguments OutOfFuel {A}.

Definition and_then {A B} (r : result A) (f : A -> result B) : result B :=
  match r with
  | Parsed a => f a
  | SyntaxError => SyntaxError
  | OutOfFuel => OutOfFuel
  end.

Fixpoint text_eqb (s t : text) : bool :=
  match s, t with
  | [], [] => true
  | c :: s', d :: t' => (c =? d) && text_eqb s' t'
  | _, _ => false
  end.

(** *** Numbers and their decimal digits *)

Definition is_digit (c : N) : bool := (48 <=? c) && (c <=? 57).

(** The longest prefix of decimal digits, and the text after it. *)
Fixpoint read_digits (l : text) : text * text :=
  match l with
  | c :: l' =>
      if is_digit c then let '(ds, rest) := read_digits l' in (c :: ds, rest)
      else ([], l)
  | [] => ([], [])
  end.

(** The number that the decimal digits [ds] denote. *)
Definition digits_value (ds : text) : N :=
  fold_left (fun acc c => 10 * acc + (c - 48)) ds 0.

Definition same_float (x y : spec_float) : bool :=
  match x, y with
  | S754_zero s, S754_zero s' => Bool.eqb s s'
  | S754_infinity s, S754_infinity s' => Bool.eqb s s'
  | S754_nan, S754_nan => true
  | S754_finite s m e, S754_finite s' m' e' => Bool.eqb s s' && (m =? m')%positive && (e =? e')%Z
  | _, _ => false
  end.

(** The Number value for the decimal [m * 10^e], negated when [negative]:
    the binary64 number nearest to it, ties to even. *)
Definition round_decimal (negative : bool) (m : N) (e : Z) : spec_float :=
  let x :=
    match (Z.of_N m * 10 ^ Z.max e 0)%Z with
    | Zpos p => SFdiv prec emax (S754_finite false p 0)
                  (S754_finite false (Z.to_pos (10 ^ Z.max (- e) 0)) 0)
    | _ => S754_zero false
    end in
  if negative then SFopp x else x.

Fixpoint uint_codes (d : Decimal.uint) : text :=
  match d with
  | Decimal.Nil => []
  | Decimal.D0 d' => 48 :: uint_codes d'
  | Decimal.D1 d' => 49 :: uint_codes d'
  | Decimal.D2 d' => 50 :: uint_codes d'
  | Decimal.D3 d' => 51 :: uint_codes d'
  | Decimal.D4 d' => 52 :: uint_codes d'
  | Decimal.D5 d' => 53 :: uint_codes d'
  | Decimal.D6 d' => 54 :: uint_codes d'
  | Decimal.D7 d' => 55 :: uint_codes d'
  | Decimal.D8 d' => 56 :: uint_codes d'
  | Decimal.D9 d' => 57 :: uint_codes d'
  end.

(** The digits of the decimal representation of [n]. *)
Definition decimal (n : N) : text := uint_codes (N.to_uint n).

(** [s * 10^e] without the zeros at the end of [s]. *)
Fixpoint strip_zeros (fuel : nat) (s : N) (e : Z) : N * Z :=
  match fuel with
  | O => (s, e)
  | S fuel' =>
      if (0 <? s) && (s mod 10 =? 0) then strip_zeros fuel' (s / 10) (e + 1)%Z
      else (s, e)
  end.

Section digits.
(** The positive number [m * 2^e]. *)
Variables (m : positive) (e : Z).

(** [m * 2^e * 10^j] as a fraction. *)
Definition scaled_numerator (j : Z) : Z := (Zpos m * 2 ^ Z.max e 0 * 10 ^ Z.max j 0)%Z.
Definition scaled_denominator (j : Z) : Z := (2 ^ Z.max (- e) 0 * 10 ^ Z.max (- j) 0)%Z.

(** The [n] with [10^(n-1) <= m * 2^e < 10^n], found next to an estimate
    of the decimal logarithm. *)
Definition magnitude : Z :=
  let n0 := ((Z.log2 (Zpos m) + e) * 30103 / 100000)%Z in
  let below n := (scaled_numerator (- n) <? scaled_denominator (- n))%Z in
  default n0
    (find (fun n => negb (below (n - 1)%Z) && below n)
       [n0 - 1; n0; n0 + 1; n0 + 2; n0 + 3]%Z).

(** Whether the Number value for the decimal [r] is [m * 2^e]. *)
Definition denotes (r : N * Z) : bool :=
  same_float (round_decimal false (fst r) (snd r)) (S754_finite false m e).

(** The decimals of [k] digits whose Number value is [m * 2^e] are among
    the two next to it; of those that are, the nearer, and the even one
    of two that are as near. *)
Definition candidate (n k : Z) : option (N * Z) :=
  let j := (k - n)%Z in
  let num := scaled_numerator j in
  let den := scaled_denominator j in
  let lo := (num / den)%Z in
  let below := strip_zeros 20 (Z.to_N lo) (- j)%Z in
  let above := strip_zeros 20 (Z.to_N (lo + 1)) (- j)%Z in
  match denotes below, denotes above with
  | true, true =>
      match (2 * num ?= (2 * lo + 1) * den)%Z with
      | Lt => Some below
      | Gt => Some above
      | Eq => Some (if Z.even lo then below else above)
      end
  | true, false => Some below
  | false, true => Some above
  | false, false => None
  end.

Fixpoint shortest_from (fuel : nat) (n k : Z) : option (N * Z) :=
  match fuel with
  | O => None
  | S fuel' =>
      match candidate n k with
      | Some r => Some r
      | None => shortest_from fuel' n (k + 1)%Z
      end
  end.

(** The integers [s] and [n - k] of [Number::toString]: the fewest digits
    [s], not ending in zero, such that the Number value for
    [s * 10^(n-k)] is [m * 2^e].  The search goes up to seventeen digits,
    where every binary64 number has them. *)
Definition shortest : option (N * Z) := shortest_from 17 magnitude 1.

(** The digits of [m * 2^e] itself, for a search that found none. *)
Definition exact : N * Z :=
  if (0 <=? e)%Z then (Npos m * 2 ^ Z.to_N e, 0%Z)
  else (Npos m * 5 ^ Z.to_N (- e), e).

End digits.

Definition zeros (n : Z) : text := repeat 48 (Z.to_nat n).

(** [Number::toString], the steps that lay out the digits [ds] of [s]
    for the given [n]: as an integer, with a decimal point, or with an
    exponent. *)
Definition layout (ds : text) (n : Z) : text :=
  let k := Z.of_nat (length ds) in
  if ((k <=? n) && (n <=? 21))%Z then ds ++ zeros (n - k)
  else if ((0 <? n) && (n <=? 21))%Z then
    take (Z.to_nat n) ds ++ 46 :: drop (Z.to_nat n) ds
  else if ((-6 <? n) && (n <=? 0))%Z then 48 :: 46 :: zeros (- n) ++ ds
  else
    let exponent :=
      101 :: (if (0 <=? n - 1)%Z then 43 else 45) :: decimal (Z.to_N (Z.abs (n - 1))) in
    match ds with
    | [] => []
    | [d] => d :: exponent
    | d :: ds' => d :: 46 :: ds' ++ exponent
    end.

(** [Number::toString] in radix 10. *)
Definition Number_toString (x : spec_float) : text :=
  match x with
  | S754_nan => code_units "NaN"
  | S754_zero _ => [48]
  | S754_infinity s => (if s then [45] else []) ++ code_units "Infinity"
  | S754_finite s m e =>
      let '(d, e10) := match shortest m e with Some r => r | None => exact m e end in
      let ds := decimal d in
      (if s then [45] else []) ++ layout ds (Z.of_nat (length ds) + e10)
  end.

(** *** [JSON.stringify] *)

Definition hex_char (n : N) : N := if n <? 10 then 48 + n else 87 + n.

(** [UnicodeEscape]: a reverse solidus, [u], and four hexadecimal digits. *)
Definition unicode_escape (c : N) : text :=
  [92; 117; hex_char (c / 4096); hex_char (c / 256 mod 16); hex_char (c / 16 mod 16);
   hex_char (c mod 16)].

Definition leading_surrogate (c : N) : bool := (55296 <=? c) && (c <=? 56319).
Definition trailing_surrogate (c : N) : bool := (56320 <=? c) && (c <=? 57343).

(** [QuoteJSONString] on a code point that is no surrogate: the short
    escapes, a [u] escape for the other control characters, and the
    character itself otherwise. *)
Definition escape (c : N) : text :=
  if c =? 8 then [92; 98]
  else if c =? 9 then [92; 116]
  else if c =? 10 then [92; 110]
  else if c =? 12 then [92; 102]
  else if c =? 13 then [92; 114]
  else if c =? 34 then [92; 34]
  else if c =? 92 then [92; 92]
  else if c <? 32 then unicode_escape c
  else [c].

(** [QuoteJSONString] between the quotation marks: code point by code
    point, a surrogate pair written as it is and a surrogate without its
    partner as a [u] escape. *)
Fixpoint quote_units (s : text) : text :=
  match s with
  | [] => []
  | c :: s' =>
      if leading_surrogate c then
        match s' with
        | d :: s'' =>
            if trailing_surrogate d then c :: d :: quote_units s''
            else unicode_escape c ++ quote_units s'
        | [] => unicode_escape c
        end
      else if trailing_surrogate c then unicode_escape c ++ quote_units s'
      else escape c ++ quote_units s'
  end.

Definition quote (s : text) : text := 34 :: quote_units s ++ [34].

Definition finite (x : spec_float) : bool :=
  match x with
  | S754_zero _ | S754_finite _ _ _ => true
  | _ => false
  end.

(** The elements of a list with a comma between them. *)
Fixpoint separated (l : list text) : text :=
  match l with
  | [] => []
  | [x] => x
  | x :: rest => x ++ 44 :: separated rest
  end.

(** [SerializeJSONProperty] without indentation. *)
Fixpoint serialize (v : value) : text :=
  match v with
  | JNull => code_units "null"
  | JBool true => code_units "true"
  | JBool false => code_units "false"
  | JNumber x => if finite x then Number_toString x else code_units "null"
  | JString s => quote s
  | JArray elements => 91 :: separated (map serialize elements) ++ [93]
  | JObject members =>
      123 :: separated (map (fun m => quote (fst m) ++ 58 :: serialize (snd m)) members)
      ++ [125]
  end.

Definition stringify (v : value) : text := serialize v.

(** *** [JSON.parse] *)

Definition is_ws (c : N) : bool := (c =? 9) || (c =? 10) || (c =? 13) || (c =? 32).

Fixpoint skip_ws (l : text) : text :=
  match l with
  | c :: l' => if is_ws c then skip_ws l' else l
  | [] => []
  end.

Definition prepend {A} (c : N) (r : result (text * A)) : result (text * A) :=
  and_then r (fun '(s, rest) => Parsed (c :: s, rest)).

(** The character a one-letter escape stands for. *)
Definition unescape (e : N) : option N :=
  if e =? 34 then Some 34
  else if e =? 92 then Some 92
  else if e =? 47 then Some 47
  else if e =? 98 then Some 8
  else if e =? 102 then Some 12
  else if e =? 110 then Some 10
  else if e =? 114 then Some 13
  else if e =? 116 then Some 9
  else None.

Definition hex_value (c : N) : option N :=
  if is_digit c then Some (c - 48)
  else if (97 <=? c) && (c <=? 102) then Some (c - 87)
  else if (65 <=? c) && (c <=? 70) then Some (c - 55)
  else None.

(** The code unit of the four hexadecimal digits of a [u] escape. *)
Definition hex4 (a b c d : N) : option N :=
  match hex_value a, hex_value b, hex_value c, hex_value d with
  | Some x, Some y, Some z, Some w => Some (((x * 16 + y) * 16 + z) * 16 + w)
  | _, _, _, _ => None
  end.

(** A string literal after its opening quotation mark: the string and the
    text after the closing mark. *)
Fixpoint read_string (l : text) : result (text * text) :=
  match l with
  | [] => SyntaxError
  | c :: l' =>
      if c =? 34 then Parsed ([], l')
      else if c =? 92 then
        match l' with
        | [] => SyntaxError
        | e :: l'' =>
            match unescape e with
            | Some c' => prepend c' (read_string l'')
            | None =>
                if e =? 117 then
                  match l'' with
                  | h1 :: h2 :: h3 :: h4 :: l3 =>
                      match hex4 h1 h2 h3 h4 with
                      | Some code => prepend code (read_string l3)
                      | None => SyntaxError
                      end
                  | _ => SyntaxError
                  end
                else SyntaxError
            end
        end
      else if c <? 32 then SyntaxError
      else prepend c (read_string l')
  end.

(** The integer part of a number literal: digits, with no zero before
    another digit. *)
Definition integer_part (ds : text) : bool :=
  match ds with
  | [] => false
  | [_] => true
  | c :: _ => negb (c =? 48)
  end.

(** The fraction of a number literal, if it has one: the digits after the
    point. *)
Definition read_fraction (l : text) : option (text * text) :=
  match l with
  | 46 :: r =>
      match read_digits r with
      | ([], _) => None
      | (ds, rest) => Some (ds, rest)
      end
  | _ => Some ([], l)
  end.

(** The exponent of a number literal, zero if it has none. *)
Definition read_exponent (l : text) : option (Z * text) :=
  match l with
  | c :: r =>
      if (c =? 101) || (c =? 69) then
        let '(negative, r1) :=
          match r with
          | 43 :: r' => (false, r')
          | 45 :: r' => (true, r')
          | _ => (false, r)
          end in
        match read_digits r1 with
        | ([], _) => None
        | (ds, rest) =>
            let v := Z.of_N (digits_value ds) in
            Some (if negative then (- v)%Z else v, rest)
        end
      else Some (0%Z, l)
  | [] => Some (0%Z, [])
  end.

(** A number literal, and the Number value of the decimal it denotes. *)
Definition read_unsigned (negative : bool) (l : text) : result (spec_float * text) :=
  let '(ip, l2) := read_digits l in
  if integer_part ip then
    match read_fraction l2 with
    | Some (fp, l3) =>
        match read_exponent l3 with
        | Some (ex, l4) =>
            Parsed (round_decimal negative (digits_value (ip ++ fp))
                      (ex - Z.of_nat (length fp)), l4)
        | None => SyntaxError
        end
    | None => SyntaxError
    end
  else SyntaxError.

Definition read_number (l : text) : result (spec_float * text) :=
  match l with
  | c :: r => if c =? 45 then read_unsigned true r else read_unsigned false l
  | [] => SyntaxError
  end.

Fixpoint starts_with (word l : text) : bool :=
  match word, l with
  | [], _ => true
  | c :: word', d :: l' => (c =? d) && starts_with word' l'
  | _ :: _, [] => false
  end.

Definition expect (word : string) (v : value) (l : text) : result (value * text) :=
  let w := code_units word in
  if starts_with w l then Parsed (v, drop (length w) l) else SyntaxError.

(** An array index: the decimal representation, without a zero before a
    digit, of an integer below 2^32 - 1. *)
Definition array_index (k : text) : option N :=
  if (0 <? length k)%nat && (length k <=? 10)%nat && forallb is_digit k then
    let i := digits_value k in
    if (i <? 4294967295) && text_eqb (decimal i) k then Some i else None
  else None.

(** A new property [k] among the own properties [ms], which are in the
    order of enumeration: an array index goes before the first key that is
    no smaller array index, another key goes last. *)
Fixpoint place_index (i : N) (k : text) (v : value) (ms : list (text * value))
  : list (text * value) :=
  match ms with
  | [] => [(k, v)]
  | m :: ms' =>
      match array_index (fst m) with
      | Some j => if j <? i then m :: place_index i k v ms' else (k, v) :: ms
      | None => (k, v) :: ms
      end
  end.

Fixpoint set_value (ms : list (text * value)) (k : text) (v : value)
  : list (text * value) :=
  match ms with
  | [] => []
  | m :: ms' => if text_eqb (fst m) k then (k, v) :: ms' else m :: set_value ms' k v
  end.

(** [CreateDataProperty] on the properties read so far: a key that is
    already there keeps its place and takes the new value. *)
Definition define_property (ms : list (text * value)) (k : text) (v : value)
  : list (text * value) :=
  if existsb (fun m => text_eqb (fst m) k) ms then set_value ms k v
  else
    match array_index k with
    | Some i => place_index i k v ms
    | None => ms ++ [(k, v)]
    end.

(** The object of an object literal whose members were read in the order
    [ms]. *)
Definition object_of (ms : list (text * value)) : value :=
  JObject (fold_left (fun acc m => define_property acc (fst m) (snd m)) ms []).

Section descent.
(** The recursive descent, for any way [make_object] of making an object
    of the members read; [JSON.parse] makes it by [object_of].  [fuel]
    bounds the depth of the calls. *)
Variable make_object : list (text * value) -> value.

Fixpoint parse_value (fuel : nat) (l : text) : result (value * text) :=
  match fuel with
  | O => OutOfFuel
  | S fuel' =>
      match skip_ws l with
      | [] => SyntaxError
      | c :: r =>
          if c =? 110 then expect "null" JNull (c :: r)
          else if c =? 116 then expect "true" (JBool true) (c :: r)
          else if c =? 102 then expect "false" (JBool false) (c :: r)
          else if c =? 34 then
            and_then (read_string r) (fun '(s, rest) => Parsed (JString s, rest))
          else if c =? 91 then
            match skip_ws r with
            | 93 :: rest => Parsed (JArray [], rest)
            | _ =>
                and_then (parse_elements fuel' r)
                  (fun '(vs, rest) => Parsed (JArray vs, rest))
            end
          else if c =? 123 then
            match skip_ws r with
            | 125 :: rest => Parsed (JObject [], rest)
            | _ =>
                and_then (parse_members fuel' r)
                  (fun '(ms, rest) => Parsed (make_object ms, rest))
            end
          else
            and_then (read_number (c :: r)) (fun '(x, rest) => Parsed (JNumber x, rest))
      end
  end

with parse_elements (fuel : nat) (l : text) : result (list value * text) :=
  match fuel with
  | O => OutOfFuel
  | S fuel' =>
      and_then (parse_value fuel' l) (fun '(v, r) =>
        match skip_ws r with
        | 44 :: r' =>
            and_then (parse_elements fuel' r') (fun '(vs, rest) => Parsed (v :: vs, rest))
        | 93 :: rest => Parsed ([v], rest)
        | _ => SyntaxError
        end)
  end

with parse_members (fuel : nat) (l : text) : result (list (text * value) * text) :=
  match fuel with
  | O => OutOfFuel
  | S fuel' =>
      match skip_ws l with
      | c :: r =>
          if c =? 34 then
            and_then (read_string r) (fun '(k, r1) =>
              match skip_ws r1 with
              | 58 :: r2 =>
                  and_then (parse_value fuel' r2) (fun '(v, r3) =>
                    match skip_ws r3 with
                    | 44 :: r4 =>
                        and_then (parse_members fuel' r4)
                          (fun '(ms, rest) => Parsed ((k, v) :: ms, rest))
                    | 125 :: rest => Parsed ([(k, v)], rest)
                    | _ => SyntaxError
                    end)
              | _ => SyntaxError
              end)
          else SyntaxError
      | [] => SyntaxError
      end
  end.

(** The text is one value, with white space around it at most. *)
Definition parse_text (text : text) : result value :=
  and_then (parse_value (2 * length text + 1) text) (fun '(v, rest) =>
    match skip_ws rest with
    | [] => Parsed v
    | _ => SyntaxError
    end).

End descent.

Definition parse (text : text) : result value := parse_text object_of text.

(** *** The values that survive JSON text *)

(** The numbers that [JSON.stringify] writes with digits that denote
    them: the finite binary64 numbers other than negative zero.  (Negative
    zero is written as zero, NaN and the infinities as null.) *)
Definition printable (x : spec_float) : bool :=
  match x with
  | S754_zero s => negb s
  | S754_finite _ m e => bounded prec emax m e
  | _ => false
  end.

Definition code_unit (c : N) : bool := c <? 65536.

Fixpoint distinct (ks : list text) : bool :=
  match ks with
  | [] => true
  | k :: ks' => negb (existsb (text_eqb k) ks') && distinct ks'
  end.

(** The values on which the model speaks for the built-in object: strings
    of code units, printable numbers, and no key twice in an object, at
    every depth. *)
Fixpoint representable (v : value) : bool :=
  match v with
  | JNumber x => printable x
  | JString s => forallb code_unit s
  | JArray elements => forallb representable elements
  | JObject members =>
      forallb (fun m => forallb code_unit (fst m)) members
      && distinct (map fst members)
      && forallb (fun m => representable (snd m)) members
  | _ => true
  end.

(** The order in which an object enumerates its own keys: the array
    indices, ascending, before the other keys. *)
Fixpoint own_keys_order (ks : list text) : bool :=
  match ks with
  | [] => true
  | k :: ks' =>
      match array_index k with
      | Some i =>
          forallb (fun k' => match array_index k' with
                             | Some j => i <? j
                             | None => true
                             end) ks'
      | None =>
          forallb (fun k' => match array_index k' with
                             | Some _ => false
                             | None => true
                             end) ks'
      end
      && own_keys_order ks'
  end.

(** The members of every object of [v] are in the order of enumeration,
    as the own properties of an object are. *)
Fixpoint enumerated (v : value) : bool :=
  match v with
  | JArray elements => forallb enumerated elements
  | JObject members =>
      own_keys_order (map fst members) && forallb (fun m => enumerated (snd m)) members
  | _ => true
  end.

End JSON.

(** ** [Rectangle], [getJSON] and [fromJSON] *)

(** The object [Rectangle] returns: two data properties and a method,
    which is a closure over the parameters of the call. *)
Record RectangleObject := mkRectangle {
  width : float;
  height : float;
  getArea : unit -> float;
}.

Definition Rectangle (width height : float) : RectangleObject :=
  mkRectangle width height (fun _ => (width * height)%float).

(** The assignments [r.width = v] and [r.height = v]. *)
Definition assign_width (r : RectangleObject) (v : float) : RectangleObject :=
  mkRectangle v (height r) (getArea r).
Definition assign_height (r : RectangleObject) (v : float) : RectangleObject :=
  mkRectangle (width r) v (getArea r).

(** [getJSON] on an object given by its own enumerable data; a plain data
    object has no [toJSON] method, so the text is that of this data. *)
Definition getJSON (obj : JSON.value) : JSON.text := JSON.stringify obj.

(** The own property [k] among the members [ms]. *)
Fixpoint own_property {A} (ms : list (JSON.text * A)) (k : JSON.text) : option A :=
  match ms with
  | [] => None
  | m :: ms' => if JSON.text_eqb (fst m) k then Some (snd m) else own_property ms' k
  end.

(** The own property [k] of an object or an array made from JSON data;
    an array has its elements and its length. *)
Definition own_data_property (v : JSON.value) (k : JSON.text) : option JSON.value :=
  match v with
  | JSON.JObject ms => own_property ms k
  | JSON.JArray elements =>
      if JSON.text_eqb k (JSON.code_units "length") then
        Some (JSON.JNumber (binary_normalize prec emax (Z.of_nat (length elements)) 0 false))
      else
        match JSON.array_index k with
        | Some i => elements !! N.to_nat i
        | None => None
        end
  | _ => None
  end.

Section prototypes.
(** The objects that serve as prototypes and the values their properties
    hold (methods, for one), with the lookup of a property on a prototype,
    through its own chain.  [Object_prototype] and [Array_prototype] are
    the prototypes [JSON.parse] gives to what it creates. *)
Context {Prototype Value : Type}.
Variable Get_prototype : Prototype -> JSON.text -> option Value.
Variables Object_prototype Array_prototype : Prototype.

(** An object or array made from JSON data, with its prototype slot. *)
Record object := mkObject {
  data : JSON.value;
  prototype : Prototype;
}.

Inductive js_value :=
| Primitive (v : JSON.value)
| Obj (o : object).

(** How a call of [fromJSON] ends.  [OutOfFuel] stands for a parse that
    ran out of fuel, which no call meets ([fromJSON_ends]). *)
Inductive outcome :=
| Return (v : js_value)
| ThrowSyntaxError
| ThrowTypeError
| OutOfFuel.

(** The value [JSON.parse] returns for the data [v]. *)
Definition parsed (v : JSON.value) : js_value :=
  match v with
  | JSON.JArray _ => Obj (mkObject v Array_prototype)
  | JSON.JObject _ => Obj (mkObject v Object_prototype)
  | _ => Primitive v
  end.

(** [Object.setPrototypeOf(o, proto)] for an object [proto]: a type error
    on null, nothing on another primitive, the slot set on an object. *)
Definition setPrototypeOf (o : js_value) (proto : Prototype) : outcome :=
  match o with
  | Primitive JSON.JNull => ThrowTypeError
  | Primitive _ => Return o
  | Obj ob => Return (Obj (mkObject (data ob) proto))
  end.

Definition fromJSON (proto : Prototype) (json : JSON.text) : outcome :=
  match JSON.parse json with
  | JSON.Parsed v => setPrototypeOf (parsed v) proto
  | JSON.SyntaxError => ThrowSyntaxError
  | JSON.OutOfFuel => OutOfFuel
  end.

(** [o[k]]: the own property if there is one, else what the prototype
    gives. *)
Definition Get (o : object) (k : JSON.text) : option (JSON.value + Value) :=
  match own_data_property (data o) k with
  | Some v => Some (inl v)
  | None => inr <$> Get_prototype (prototype o) k
  end.

End prototypes.


(** * The vocabulary of the statements *)

(** ** Chains of part-adding calls *)

(** One part-adding call of a chain such as
    [builder.element(a).id(b).class(c)]. *)
Inductive call :=
| Element (value : string)
| Id (value : string)
| Class (value : string)
| Attr (value : string)
| PseudoClass (value : string)
| PseudoElement (value : string).

(** The call as a method call on an existing selector. *)
Definition invoke (this : loc) (c : call) : M loc :=
  match c with
  | Element v => MySuperBaseElementSelector.element this v
  | Id v => MySuperBaseElementSelector.id this v
  | Class v => MySuperBaseElementSelector.class this v
  | Attr v => MySuperBaseElementSelector.attr this v
  | PseudoClass v => MySuperBaseElementSelector.pseudoClass this v
  | PseudoElement v => MySuperBaseElementSelector.pseudoElement this v
  end.

(** The call as a call of the facade, which makes the selector. *)
Definition facade (c : call) : M loc :=
  match c with
  | Element v => cssSelectorBuilder.element v
  | Id v => cssSelectorBuilder.id v
  | Class v => cssSelectorBuilder.class v
  | Attr v => cssSelectorBuilder.attr v
  | PseudoClass v => cssSelectorBuilder.pseudoClass v
  | PseudoElement v => cssSelectorBuilder.pseudoElement v
  end.

(** [this.c1(..).c2(..)...]: each call is made on what the previous one
    returned. *)
Fixpoint chain (this : loc) (cs : list call) : M loc :=
  match cs with
  | [] => mret this
  | c :: cs' => this' ← invoke this c; chain this' cs'
  end.

(** [cssSelectorBuilder.c(..).c1(..).c2(..)...] *)
Definition build (c : call) (cs : list call) : M loc :=
  this ← facade c; chain this cs.

(** The rank of a category in the order
    element, id, class, attribute, pseudo-class, pseudo-element. *)
Definition rank (c : call) : Z :=
  match c with
  | Element _ => 1
  | Id _ => 2
  | Class _ => 3
  | Attr _ => 4
  | PseudoClass _ => 5
  | PseudoElement _ => 6
  end.

(** The two kinds of error of the specification, told apart by the
    message. *)
Definition OrderError (e : Error) : Prop := message e = "Wrong order".
Definition DuplicateError (e : Error) : Prop :=
  message e = "Element value should be unique"
  \/ message e = "Id value should be unique"
  \/ message e = "PseudoElement value should be unique".

(** The test [this.order.length > 0 && this.order[0] > k] of the methods. *)
Definition gate (o : Selector) (k : Z) : bool :=
  (0 <? length (order o))%nat && order_gt o 0 k.

(** What one part-adding call does to the fields of [this]: the error it
    throws, or the fields after it ([invoke_effect] below relates it to the
    method bodies). *)
Definition effect (c : call) (o : Selector) : Error + Selector :=
  let b := builder o in
  match c with
  | Element v =>
      if negb (String.eqb (Builder.element b) "") then
        inl (mkError "Element value should be unique")
      else if (0 <? length (order o))%nat then inl (mkError "Wrong order")
      else inr (mkSelector (Builder.set_element v b) (order o ++ [Onumber 1]))
  | Id v =>
      if negb (String.eqb (Builder.id b) "") then
        inl (mkError "Id value should be unique")
      else if gate o 2 then inl (mkError "Wrong order")
      else inr (mkSelector (Builder.set_id ("#" +:+ v) b) (order o ++ [Onumber 2]))
  | Class v =>
      if gate o 3 then inl (mkError "Wrong order")
      else inr (mkSelector (Builder.push_class ("." +:+ v) b)
                           (order o ++ [Oarray Builder.Kclass]))
  | Attr v =>
      if gate o 4 then inl (mkError "Wrong order")
      else inr (mkSelector (Builder.set_attr ("[" +:+ v +:+ "]") b)
                           (order o ++ [Ostring ("[" +:+ v +:+ "]")]))
  | PseudoClass v =>
      if gate o 5 then inl (mkError "Wrong order")
      else inr (mkSelector (Builder.push_pseudoClass (":" +:+ v) b)
                           (order o ++ [Oarray Builder.KpseudoClass]))
  | PseudoElement v =>
      if negb (String.eqb (Builder.pseudoElement b) "") then
        inl (mkError "PseudoElement value should be unique")
      else inr (mkSelector (Builder.set_pseudoElement ("::" +:+ v) b)
                           (order o ++ [Ostring ("::" +:+ v)]))
  end.

(** The string [stringify] returns on the fields [o]. *)
Definition rendering (o : Selector) : string :=
  if (0 <? length (Builder.combiner (builder o)))%nat then
    JS.join " " (Builder.combiner (builder o))
  else
    fold_left (MySuperBaseElementSelector.append_key o) Builder.keys "".

(** The effect of a chain of calls on the fields of [this]: the fields
    when the chain ends, and the error that ended it, if one did. *)
Fixpoint run (cs : list call) (o : Selector) : Selector * option Error :=
  match cs with
  | [] => (o, None)
  | c :: cs' =>
      match effect c o with
      | inl e => (o, Some e)
      | inr o' => run cs' o'
      end
  end.

(** C2 as the specification states it: the ranks of the parts that a chain
    adds successfully never decrease. *)
Fixpoint non_decreasing (l : list Z) : Prop :=
  match l with
  | x :: (y :: _) as l' => x <= y /\ non_decreasing l'
  | _ => True
  end.

(** What it takes for a later call of the same category as [d] to be seen
    as a duplicate: the field that [d] set holds a non-empty string. *)
Definition stored (d : call) (o : Selector) : Prop :=
  match d with
  | Element _ => Builder.element (builder o) <> ""
  | Id _ => Builder.id (builder o) <> ""
  | PseudoElement _ => Builder.pseudoElement (builder o) <> ""
  | _ => True
  end.

(** The calls that leave a non-empty string: all but [element] of the
    empty string. *)
Definition leaves_mark (d : call) : Prop :=
  match d with
  | Element v => v <> ""
  | _ => True
  end.

(** ** Rendering of a selector built from parts *)

(** The selector of the specification's data model: the parts given so
    far, each as the caller gave it. *)
Module Spec.
Record selector := mk {
  elementName : option string;
  idName : option string;
  classNames : list string;
  attributeExpr : option string;
  pseudoClassNames : list string;
  pseudoElementName : option string;
}.

Definition empty : selector := mk None None [] None [] None.

(** The part-adding operations: the single-occurrence parts are set, class
    and pseudo-class names are appended, the attribute is replaced. *)
Definition add (p : selector) (c : call) : selector :=
  match c with
  | Element v =>
      mk (Some v) (idName p) (classNames p) (attributeExpr p) (pseudoClassNames p)
         (pseudoElementName p)
  | Id v =>
      mk (elementName p) (Some v) (classNames p) (attributeExpr p) (pseudoClassNames p)
         (pseudoElementName p)
  | Class v =>
      mk (elementName p) (idName p) (classNames p ++ [v]) (attributeExpr p)
         (pseudoClassNames p) (pseudoElementName p)
  | Attr v =>
      mk (elementName p) (idName p) (classNames p) (Some v) (pseudoClassNames p)
         (pseudoElementName p)
  | PseudoClass v =>
      mk (elementName p) (idName p) (classNames p) (attributeExpr p)
         (pseudoClassNames p ++ [v]) (pseudoElementName p)
  | PseudoElement v =>
      mk (elementName p) (idName p) (classNames p) (attributeExpr p)
         (pseudoClassNames p) (Some v)
  end.

(** A part with its punctuation, or nothing when the part is absent. *)
Definition part (before : string) (v : option string) (after : string) : string :=
  match v with
  | Some s => before +:+ s +:+ after
  | None => ""
  end.

(** Every name of a repeatable category with its prefix, one after the
    other. *)
Fixpoint parts (before : string) (l : list string) : string :=
  match l with
  | [] => ""
  | s :: l' => before +:+ s +:+ parts before l'
  end.

(** The rendering: the parts present, in the fixed order of the
    categories, with nothing between them. *)
Definition stringify (p : selector) : string :=
  part "" (elementName p) ""
  +:+ part "#" (idName p) ""
  +:+ parts "." (classNames p)
  +:+ part "[" (attributeExpr p) "]"
  +:+ parts ":" (pseudoClassNames p)
  +:+ part "::" (pseudoElementName p) "".
End Spec.

(** The fields [o] hold the parts [p], decorated as the methods store
    them, and no combination. *)
Definition represents (o : Selector) (p : Spec.selector) : Prop :=
  let b := builder o in
  Builder.element b = Spec.part "" (Spec.elementName p) ""
  /\ Builder.id b = Spec.part "#" (Spec.idName p) ""
  /\ Builder.class b = map (String.append ".") (Spec.classNames p)
  /\ Builder.attr b = Spec.part "[" (Spec.attributeExpr p) "]"
  /\ Builder.pseudoClass b = map (String.append ":") (Spec.pseudoClassNames p)
  /\ Builder.pseudoElement b = Spec.part "::" (Spec.pseudoElementName p) ""
  /\ Builder.combiner b = [].

(** The double quote, for attribute expressions that carry one. *)
Definition dquote : string := String (ascii_of_nat 34) "".

(** The chain of the specification's example, and the selector it makes. *)
Definition example_chain : list call :=
  [Id "main"; Class "container"; Class "editable";
   Attr ("href$=" +:+ dquote +:+ ".png" +:+ dquote);
   PseudoClass "focus"; PseudoElement "before"].

Definition example_selector : Selector :=
  mkSelector
    (Builder.mk "a" "#main" [".container"; ".editable"]
       ("[href$=" +:+ dquote +:+ ".png" +:+ dquote +:+ "]") [":focus"] "::before" [])
    [Onumber 1; Onumber 2; Oarray Builder.Kclass; Oarray Builder.Kclass;
     Ostring ("[href$=" +:+ dquote +:+ ".png" +:+ dquote +:+ "]");
     Oarray Builder.KpseudoClass; Ostring "::before"].

(** ** Combination and aliasing *)

(** A later use of selectors that are already on the heap: a part-adding
    call or a [combine] call on the selector [this]. *)
Inductive action :=
| Add (this : loc) (c : call)
| Combine (this : loc) (selector1 : loc) (combinator : string) (selector2 : loc).

Definition target (x : action) : loc :=
  match x with
  | Add this _ => this
  | Combine this _ _ _ => this
  end.

Definition perform (x : action) : M loc :=
  match x with
  | Add this c => invoke this c
  | Combine this s1 k s2 => MySuperBaseElementSelector.combine this s1 k s2
  end.

(** The heap a call leaves behind, whether it returned or threw. *)
Definition heap_after {A} (r : completion A) (h0 : heap) : heap :=
  match r with
  | Normal _ h' => h'
  | Throw _ h' => h'
  | Dangling => h0
  end.

(** The actions one after the other; a thrown error is caught and the
    next action goes on from the heap at the throw. *)
Fixpoint perform_all (xs : list action) (h : heap) : heap :=
  match xs with
  | [] => h
  | x :: xs' => perform_all xs' (heap_after (perform x h) h)
  end.

(** Of the part-adding calls [cs] made one after the other on the selector
    [this], errors being caught, those that returned. *)
Fixpoint returned (this : loc) (cs : list call) (h : heap) : list call :=
  match cs with
  | [] => []
  | c :: cs' =>
      match invoke this c h with
      | Normal _ h' => c :: returned this cs' h'
      | Throw _ h' => returned this cs' h'
      | Dangling => []
      end
  end.

(** ** JSON text as [JSON.stringify] writes it *)

Module JSONText.
Import JSON.
#[local] Open Scope N_scope.

(** What may follow a value in JSON text that [serialize] wrote. *)
Definition delimited (rest : text) : Prop :=
  match rest with
  | [] => True
  | c :: _ => c = 44 \/ c = 93 \/ c = 125
  end.

(** Decimal digits, and where a run of them ends. *)
Definition digits (ds : text) : Prop := Forall (fun c => is_digit c = true) ds.

Definition stop (rest : text) : Prop :=
  match rest with
  | [] => True
  | c :: _ => is_digit c = false
  end.

(** [digits_value] from a number already read. *)
Definition value_from (acc : N) (ds : text) : N :=
  fold_left (fun acc c => 10 * acc + (c - 48)) ds acc.

(** The code units a serialized value can start with. *)
Definition starter (c : N) : bool :=
  existsb (N.eqb c) [110; 116; 102; 34; 91; 123; 45; 48; 49; 50; 51; 52; 53; 54; 55; 56; 57].

(** The code units a number can start with. *)
Definition number_start (c : N) : Prop := is_digit c = true \/ c = 45.

(** A member of an object as [serialize] writes it. *)
Definition member (m : text * value) : text := quote (fst m) ++ 58 :: serialize (snd m).

(** [make_object] makes of the members of every object of [v] the
    object that has them in their order. *)
Fixpoint kept (make_object : list (text * value) -> value) (v : value) : Prop :=
  match v with
  | JArray elements => fold_right (fun x P => kept make_object x /\ P) True elements
  | JObject members =>
      make_object members = JObject members
      /\ fold_right (fun m P => kept make_object (snd m) /\ P) True members
  | _ => True
  end.

(** Parsing what [serialize] wrote for [v], followed by [rest], gives [v]
    and leaves [rest]. *)
Definition round_trips (make_object : list (text * value) -> value) (v : value) : Prop :=
  representable v = true -> kept make_object v ->
  forall (fuel : nat) (rest : text),
    (2 * length (serialize v) + 1 <= fuel)%nat -> delimited rest ->
    parse_value make_object fuel (serialize v ++ rest) = Parsed (v, rest).

End JSONText.

(** A prototype with one method, as [Circle.prototype] in the source's
    example of [fromJSON], and two stand-ins for the built-in prototypes;
    each is given by its properties, the values being names. *)
Definition Circle_prototype : list (JSON.text * string) :=
  [(JSON.code_units "getArea", "function getArea")].
Definition Object_prototype_example : list (JSON.text * string) :=
  [(JSON.code_units "toString", "function toString")].
Definition Array_prototype_example : list (JSON.text * string) :=
  [(JSON.code_units "join", "function join")].

(** The Number value of a decimal literal [m * 10^e]. *)
Definition number (m : N) (e : Z) : JSON.value := JSON.JNumber (JSON.round_decimal false m e).

(** The own properties of [{ radius: 1.5, name: s, tags: [true, null, 0.1] }],
    where [s] is a Greek letter followed by a surrogate pair. *)
Definition circle_data : list (JSON.text * JSON.value) :=
  [(JSON.code_units "radius", number 15 (-1));
   (JSON.code_units "name", JSON.JString [960; 55357; 56832]%N);
   (JSON.code_units "tags", JSON.JArray [JSON.JBool true; JSON.JNull; number 1 (-1)])].

(** ** Shapes of chains *)

(** The argument of a call with the punctuation of its category, as the
    method stores it. *)
Definition decorate (c : call) : string :=
  match c with
  | Element v => v
  | Id v => "#" +:+ v
  | Class v => "." +:+ v
  | Attr v => "[" +:+ v +:+ "]"
  | PseudoClass v => ":" +:+ v
  | PseudoElement v => "::" +:+ v
  end.

(** The strings of a list one after the other. *)
Definition concat_strings (l : list string) : string := fold_right String.append "" l.

(** How many calls of the category of rank [k] a chain has. *)
Fixpoint occurrences (k : Z) (cs : list call) : nat :=
  match cs with
  | [] => 0
  | c :: cs' => ((if (rank c =? k)%Z then 1 else 0) + occurrences k cs')%nat
  end.

(** A chain with no [element] call after the first call, and with at most
    one [id] call and at most one [pseudoElement] call in all. *)
Definition single_parts_once (c : call) (cs : list call) : Prop :=
  occurrences 1 cs = 0%nat
  /\ (occurrences 2 (c :: cs) <= 1)%nat
  /\ (occurrences 6 (c :: cs) <= 1)%nat.

(** The categories that may occur several times in a selector. *)
Definition repeatable (c : call) : bool := (rank c =? 3) || (rank c =? 5).

(** A chain in the order of a CSS selector after a part of rank [prev]:
    the ranks never decrease, and only classes and pseudo-classes repeat. *)
Fixpoint canonical (prev : Z) (cs : list call) : bool :=
  match cs with
  | [] => true
  | c :: cs' =>
      ((prev <? rank c) || ((prev =? rank c) && repeatable c)) && canonical (rank c) cs'
  end.

(** What a call pushes on [order]. *)
Definition pushed (c : call) : order_item :=
  match c with
  | Element _ => Onumber 1
  | Id _ => Onumber 2
  | Class _ => Oarray Builder.Kclass
  | Attr v => Ostring ("[" +:+ v +:+ "]")
  | PseudoClass _ => Oarray Builder.KpseudoClass
  | PseudoElement v => Ostring ("::" +:+ v)
  end.

(** The first entry of [order] is one that every gate lets pass: the number
    1 or 2, a string that starts with a bracket or a colon, or the array of
    pseudo-classes, whose first string starts with a colon. *)
Definition passes_gates (o : Selector) : Prop :=
  match order o with
  | Onumber n :: _ => n <= 2
  | Ostring s :: _ => exists t, s = "[" +:+ t \/ s = ":" +:+ t
  | Oarray Builder.KpseudoClass :: _ =>
      exists v more, Builder.pseudoClass (builder o) = (":" +:+ v) :: more
  | _ => False
  end.

(** The parts of rank above [k] are absent from [p]. *)
Definition nothing_above (k : Z) (p : Spec.selector) : Prop :=
  (k < 1 -> Spec.elementName p = None)
  /\ (k < 2 -> Spec.idName p = None)
  /\ (k < 3 -> Spec.classNames p = [])
  /\ (k < 4 -> Spec.attributeExpr p = None)
  /\ (k < 5 -> Spec.pseudoClassNames p = [])
  /\ (k < 6 -> Spec.pseudoElementName p = None).

(** * Lemmas and theorems *)

(** Case analysis on every test of a method body, closing the branches
    that [tac] settles. *)
Tactic Notation "case_tests" tactic3(tac) :=
  repeat (match goal with |- context [if ?b then _ else _] => destruct b end; try tac).

(** The bodies of the six part-adding methods. *)
Ltac unfold_methods :=
  unfold MySuperBaseElementSelector.element, MySuperBaseElementSelector.id,
    MySuperBaseElementSelector.class, MySuperBaseElementSelector.attr,
    MySuperBaseElementSelector.pseudoClass, MySuperBaseElementSelector.pseudoElement.

(** ** Method calls in terms of their effect on the heap *)

Section method_calls.
Context (h : heap) (this : loc) (o : Selector).
Hypothesis Hthis : h !! this = Some o.

Lemma deref_this : deref this h = Normal o h.
Proof using Hthis. unfold deref. by rewrite Hthis. Qed.

Lemma update_this f : update this f h = Normal tt (<[this := f o]> h).
Proof using Hthis. unfold update. by rewrite Hthis. Qed.

Lemma lookup_updated (o' : Selector) : <[this := o']> h !! this = Some o'.
Proof using Hthis. apply list_lookup_insert_eq. by eapply lookup_lt_Some. Qed.

Lemma stringify_this :
  MySuperBaseElementSelector.stringify this h = Normal (rendering o) h.
Proof using Hthis.
  unfold MySuperBaseElementSelector.stringify, rendering, mbind, M_bind.
  rewrite deref_this. by destruct (0 <? length _)%nat.
Qed.

Lemma invoke_effect c :
  invoke this c h =
    match effect c o with
    | inl e => Throw e h
    | inr o' => Normal this (<[this := o']> h)
    end.
Proof using Hthis.
  destruct c; simpl; unfold_methods; unfold gate;
    unfold mbind at 1, M_bind at 1; rewrite deref_this; simpl;
    case_tests reflexivity;
    unfold mbind, M_bind, mret, M_ret, update, deref;
    rewrite ?Hthis, ?lookup_updated; simpl;
    rewrite ?lookup_updated, ?list_insert_insert_eq; reflexivity.
Qed.

End method_calls.

Lemma chain_run cs : forall (h : heap) (this : loc) (o : Selector),
  h !! this = Some o ->
  chain this cs h =
    match run cs o with
    | (o', None) => Normal this (<[this := o']> h)
    | (o', Some e) => Throw e (<[this := o']> h)
    end.
Proof.
  induction cs as [|c cs IH]; intros h this o Hthis; simpl.
  - unfold mret, M_ret. by rewrite list_insert_id.
  - unfold mbind, M_bind. rewrite (invoke_effect h this o Hthis).
    destruct (effect c o) as [e|o'].
    + by rewrite list_insert_id.
    + rewrite (IH _ this o') by (by eapply lookup_updated).
      destruct (run cs o') as [o'' [e|]]; by rewrite list_insert_insert_eq.
Qed.

Lemma lookup_fresh (h : heap) (o : Selector) : (h ++ [o]) !! length h = Some o.
Proof. rewrite lookup_app_r by lia. by rewrite Nat.sub_diag. Qed.

Lemma insert_fresh (h : heap) (o o' : Selector) :
  <[length h := o']> (h ++ [o]) = h ++ [o'].
Proof. rewrite insert_app_r_alt by lia. by rewrite Nat.sub_diag. Qed.

Lemma facade_invoke c (h : heap) :
  facade c h = invoke (length h) c (h ++ [MySuperBaseElementSelector.constructor]).
Proof. by destruct c. Qed.

Lemma build_run c cs (h : heap) :
  build c cs h =
    match run (c :: cs) MySuperBaseElementSelector.constructor with
    | (o', None) => Normal (length h) (h ++ [o'])
    | (o', Some e) => Throw e (h ++ [o'])
    end.
Proof.
  unfold build, mbind, M_bind. rewrite facade_invoke.
  rewrite (invoke_effect _ _ _ (lookup_fresh h _)). simpl.
  destruct (effect c _) as [e|o'].
  - done.
  - rewrite insert_fresh.
    rewrite (chain_run cs _ _ o') by apply lookup_fresh.
    destruct (run cs o') as [o'' [e|]]; by rewrite insert_fresh.
Qed.

(** ** Numbers of the strings the class stores *)

Lemma trim_start_snoc c l :
  JS.StrWhiteSpaceChar c = false ->
  exists l', JS.trim_start (l ++ [c]) = l' ++ [c].
Proof.
  intros Hc. induction l as [|d l IH]; simpl.
  - rewrite Hc. by exists [].
  - destruct (JS.StrWhiteSpaceChar d); [done|]. by exists (d :: l).
Qed.

Lemma trim_cons c l :
  JS.StrWhiteSpaceChar c = false -> exists l', JS.trim (c :: l) = c :: l'.
Proof.
  intros Hc. unfold JS.trim. simpl JS.trim_start at 2. rewrite Hc. simpl rev at 2.
  destruct (trim_start_snoc c (rev l) Hc) as [l' ->].
  exists (rev l'). by rewrite rev_app_distr.
Qed.

(** A string that starts with a colon is not a numeric string: this is
    every entry [pseudoElement] leaves on [order], and every array that
    [pseudoClass] filled, joined with commas. *)
Lemma StringToNumber_colon s : JS.StringToNumber (":" +:+ s) = JS.NaN.
Proof.
  change (":" +:+ s) with (String ":" s).
  unfold JS.StringToNumber. simpl list_ascii_of_string.
  destruct (trim_cons ":" (list_ascii_of_string s) eq_refl) as [l' ->].
  reflexivity.
Qed.

(** The numbers 1 and 2 that [element] and [id] push pass every gate. *)
Lemma gate_first_number (o : Selector) (n k : Z) rest :
  order o = Onumber n :: rest -> n <= k -> gate o k = false.
Proof.
  intros Ho Hn. unfold gate, order_gt. rewrite Ho. simpl.
  assert (0 <= 2 ^ Z.log2 k) by (apply Z.pow_nonneg; lia).
  destruct n as [|p|p]; simpl; try done.
  - apply Z.ltb_ge. lia.
  - apply Z.ltb_ge. change (Z.pow_pos 2 53) with 9007199254740992. lia.
Qed.

Lemma gate_first_colon (o : Selector) s rest k :
  order o = Ostring (":" +:+ s) :: rest -> gate o k = false.
Proof.
  intros Ho. unfold gate, order_gt. rewrite Ho.
  change ((Ostring (":" +:+ s) :: rest) !! 0%nat) with (Some (Ostring (":" +:+ s))).
  cbv beta iota. unfold order_value, JS.ToNumber.
  rewrite (StringToNumber_colon s). apply andb_false_r.
Qed.

(** After [element] or [id] as the first part, a class, an attribute and a
    pseudo-class are accepted whatever was added in between: the gate looks
    at the first entry of [order] only. *)
Lemma accepted_after_element_or_id (o : Selector) (n : Z) rest (c : call) :
  order o = Onumber n :: rest -> n <= 2 -> 3 <= rank c <= 5 ->
  exists o', effect c o = inr o'.
Proof.
  intros Ho Hn Hc.
  destruct c; simpl in Hc; try lia; simpl;
    rewrite (gate_first_number o n _ rest Ho) by lia; eauto.
Qed.

(** ** Order of the parts *)

Lemma effect_order_grows c o o' :
  effect c o = inr o' -> exists x, order o' = order o ++ [x].
Proof.
  destruct c; simpl;
    case_tests discriminate;
    intros [= <-]; simpl; eauto.
Qed.

Lemma effect_element_fails v o :
  order o <> [] -> exists e, effect (Element v) o = inl e.
Proof.
  intros Ho. simpl. destruct (negb _); [eauto|].
  destruct (order o); [done|]. simpl. eauto.
Qed.

Lemma run_no_element cs : forall o o',
  order o <> [] -> run cs o = (o', None) -> Forall (fun c => 1 < rank c) cs.
Proof.
  induction cs as [|c cs IH]; intros o o' Ho Hrun; [constructor|].
  simpl in Hrun. destruct (effect c o) as [e|o1] eqn:Hc; [done|].
  constructor.
  - destruct c; simpl; try lia.
    destruct (effect_element_fails value o Ho) as [e He]. congruence.
  - apply (IH o1 o'); [|done].
    destruct (effect_order_grows _ _ _ Hc) as [x ->]. by destruct (order o).
Qed.

(** C2, counterexample: the chain element, class, id is accepted although
    its ranks 1, 3, 2 decrease. *)
Lemma ranks_can_decrease :
  build (Element "a") [Class "c"; Id "i"] [] =
    Normal 0%nat
      [mkSelector (Builder.mk "a" "#i" [".c"] "" [] "" [])
                  [Onumber 1; Oarray Builder.Kclass; Onumber 2]]
  /\ ~ non_decreasing (map rank [Element "a"; Class "c"; Id "i"]).
Proof. split; [reflexivity | simpl; lia]. Qed.

(** C2, amended: once a part has been added to a builder, every later
    [element] call fails, so in a chain of part-adding calls that all
    succeed only the first can have rank 1; every later part has a rank
    above 1. *)
Theorem element_only_first c cs (h h' : heap) (l : loc) :
  build c cs h = Normal l h' -> Forall (fun c' => 1 < rank c') cs.
Proof.
  rewrite build_run. simpl.
  destruct (effect c _) as [e|o1] eqn:Hc; [done|].
  destruct (run cs o1) as [o' [e|]] eqn:Hrun; [done|]. intros _.
  apply (run_no_element cs o1 o'); [|done].
  destruct (effect_order_grows _ _ _ Hc) as [x ->]. done.
Qed.

Lemma element_only_first_witness :
  build (Element "a") [Class "c"; Id "i"] [] =
    Normal 0%nat
      [mkSelector (Builder.mk "a" "#i" [".c"] "" [] "" [])
                  [Onumber 1; Oarray Builder.Kclass; Onumber 2]]
  /\ Forall (fun c' => 1 < rank c') [Class "c"; Id "i"].
Proof.
  split; [reflexivity|].
  exact (element_only_first (Element "a") [Class "c"; Id "i"] [] _ 0%nat eq_refl).
Defined.

(** ** The first-rank gate *)

Lemma bind_mret {A} (m : M A) (h : heap) : (x ← m; mret x) h = m h.
Proof. unfold mbind, M_bind. by destruct (m h). Qed.

Lemma build_two c d (h : heap) : (s ← facade c; invoke s d) h = build c [d] h.
Proof.
  unfold build, mbind, M_bind. destruct (facade c h) as [l h'| |]; try done.
  simpl. symmetry. apply bind_mret.
Qed.

(** C1, evaluated where the code departs from it: on a builder whose first
    part is a pseudo-element, a following [id] call throws nothing; the
    entry that [pseudoElement] left on [order] is its string, not the rank
    6, and a string that starts with a colon is [NaN] as a number.  For
    instance [pseudoElement(after).id(id)] returns the selector. *)
Theorem id_after_pseudoElement_accepted :
  (forall (h : heap) (v w : string),
      (s ← cssSelectorBuilder.pseudoElement v; MySuperBaseElementSelector.id s w) h =
        Normal (length h)
          (h ++ [mkSelector (Builder.mk "" ("#" +:+ w) [] "" [] ("::" +:+ v) [])
                            [Ostring ("::" +:+ v); Onumber 2]]))
  /\ (s ← cssSelectorBuilder.pseudoElement "after";
      s ← MySuperBaseElementSelector.id s "id";
      MySuperBaseElementSelector.stringify s) [] =
       Normal "#id::after"
         [mkSelector (Builder.mk "" "#id" [] "" [] "::after" [])
                     [Ostring "::after"; Onumber 2]].
Proof.
  split; [|reflexivity].
  intros h v w.
  change ((s ← facade (PseudoElement v); invoke s (Id w)) h = Normal (length h)
    (h ++ [mkSelector (Builder.mk "" ("#" +:+ w) [] "" [] ("::" +:+ v) [])
                      [Ostring ("::" +:+ v); Onumber 2]])).
  rewrite build_two, build_run.
  set (o1 := mkSelector (Builder.mk "" "" [] "" [] ("::" +:+ v) [])
                        [Ostring ("::" +:+ v)]).
  assert (H1 : effect (PseudoElement v) MySuperBaseElementSelector.constructor
               = inr o1) by reflexivity.
  assert (H2 : effect (Id w) o1 =
               inr (mkSelector (Builder.mk "" ("#" +:+ w) [] "" [] ("::" +:+ v) [])
                               [Ostring ("::" +:+ v); Onumber 2])).
  { unfold effect. rewrite (gate_first_colon o1 (":" +:+ v) [] 2) by reflexivity.
    reflexivity. }
  unfold run. by rewrite H1, H2.
Qed.

(** A further input on which the gate misfires in the other direction: the
    array that [class] pushed reads as the number 500, so a second class is
    refused although a class may follow a class. *)
Example class_after_numeric_class_refused :
  (s ← cssSelectorBuilder.class "5e3"; MySuperBaseElementSelector.class s "x") [] =
    Throw (mkError "Wrong order")
      [mkSelector (Builder.mk "" "" [".5e3"] "" [] "" []) [Oarray Builder.Kclass]].
Proof. reflexivity. Qed.

(** ** Uniqueness of element, id and pseudo-element *)

Lemma nonempty_truthy (s : string) : s <> "" -> negb (String.eqb s "") = true.
Proof. intros H. apply negb_true_iff. by apply String.eqb_neq. Qed.

Lemma effect_stores d o o' :
  leaves_mark d -> effect d o = inr o' -> stored d o'.
Proof.
  destruct d; simpl; intros Hd;
    case_tests discriminate;
    intros [= <-]; simpl; done.
Qed.

Lemma effect_keeps c d o o' :
  stored d o -> effect c o = inr o' -> stored d o'.
Proof.
  destruct d; simpl; try done; intros Hd; destruct c; simpl;
    try rewrite (nonempty_truthy _ Hd);
    case_tests discriminate;
    intros [= <-]; simpl; done.
Qed.

Lemma run_stored d cs : forall o o',
  leaves_mark d -> stored d o \/ d ∈ cs -> run cs o = (o', None) -> stored d o'.
Proof.
  induction cs as [|c cs IH]; intros o o' Hd Hin Hrun; simpl in Hrun.
  - destruct Hin as [H|H]; [congruence | by apply elem_of_nil in H].
  - destruct (effect c o) as [e|o1] eqn:Hc; [done|].
    apply (IH o1 o' Hd); [|done].
    destruct Hin as [H|H].
    + left. by eapply effect_keeps.
    + apply elem_of_cons in H as [->|H]; [left; by eapply effect_stores | by right].
Qed.

Lemma element_after_empty_element (h : heap) (w : string) :
  (s ← cssSelectorBuilder.element ""; MySuperBaseElementSelector.element s w) h =
    Throw (mkError "Wrong order")
      (h ++ [mkSelector (Builder.mk "" "" [] "" [] "" []) [Onumber 1]]).
Proof.
  change ((s ← facade (Element ""); invoke s (Element w)) h = Throw (mkError "Wrong order")
    (h ++ [mkSelector (Builder.mk "" "" [] "" [] "" []) [Onumber 1]])).
  by rewrite build_two, build_run.
Qed.

(** C9: uniqueness is decided by the stored string being non-empty.  After
    [element] of the empty string a second [element] call fails with the
    wrong-order error; after [id] or [pseudoElement] of the empty string,
    which store the bare prefix, a repeated call fails with the duplicate
    error. *)
Theorem empty_string_edge_case (h : heap) (w : string) :
  (s ← cssSelectorBuilder.element ""; MySuperBaseElementSelector.element s w) h =
    Throw (mkError "Wrong order")
      (h ++ [mkSelector (Builder.mk "" "" [] "" [] "" []) [Onumber 1]])
  /\ (s ← cssSelectorBuilder.id ""; MySuperBaseElementSelector.id s w) h =
    Throw (mkError "Id value should be unique")
      (h ++ [mkSelector (Builder.mk "" "#" [] "" [] "" []) [Onumber 2]])
  /\ (s ← cssSelectorBuilder.pseudoElement "";
      MySuperBaseElementSelector.pseudoElement s w) h =
    Throw (mkError "PseudoElement value should be unique")
      (h ++ [mkSelector (Builder.mk "" "" [] "" [] "::" []) [Ostring "::"]])
  /\ OrderError (mkError "Wrong order")
  /\ ~ DuplicateError (mkError "Wrong order")
  /\ DuplicateError (mkError "Id value should be unique")
  /\ DuplicateError (mkError "PseudoElement value should be unique").
Proof.
  repeat split.
  - apply element_after_empty_element.
  - change ((s ← facade (Id ""); invoke s (Id w)) h =
      Throw (mkError "Id value should be unique")
        (h ++ [mkSelector (Builder.mk "" "#" [] "" [] "" []) [Onumber 2]])).
    by rewrite build_two, build_run.
  - change ((s ← facade (PseudoElement ""); invoke s (PseudoElement w)) h =
      Throw (mkError "PseudoElement value should be unique")
        (h ++ [mkSelector (Builder.mk "" "" [] "" [] "::" []) [Ostring "::"]])).
    by rewrite build_two, build_run.
  - unfold DuplicateError. simpl. intros [H|[H|H]]; discriminate.
  - unfold DuplicateError. simpl. tauto.
  - unfold DuplicateError. simpl. tauto.
Qed.

(** C5, evaluated where the code departs from it: [element] keeps its
    argument as it is and its duplicate check tests the stored name for
    truthiness, so after [element('')] a second [element] call is not
    refused as a duplicate; the order check refuses it, with the wrong-order
    error.  Everywhere else the code does what the claim says: on every
    allocated selector whose stored element, id or pseudo-element is not
    empty, a call of that category raises the duplicate error and changes
    nothing, and since [id] and [pseudoElement] store a prefixed string,
    calling either of them twice raises it for every pair of strings. *)
Theorem element_twice_after_empty_name :
  (forall (h : heap) (w : string),
      (s ← cssSelectorBuilder.element ""; MySuperBaseElementSelector.element s w) h =
        Throw (mkError "Wrong order")
          (h ++ [mkSelector (Builder.mk "" "" [] "" [] "" []) [Onumber 1]]))
  /\ OrderError (mkError "Wrong order")
  /\ ~ DuplicateError (mkError "Wrong order")
  /\ (forall (h : heap) (this : loc) (o : Selector) (w : string),
      h !! this = Some o ->
      (Builder.element (builder o) <> "" ->
         MySuperBaseElementSelector.element this w h =
           Throw (mkError "Element value should be unique") h)
      /\ (Builder.element (builder o) = "" -> order o <> [] ->
         MySuperBaseElementSelector.element this w h = Throw (mkError "Wrong order") h)
      /\ (Builder.id (builder o) <> "" ->
         MySuperBaseElementSelector.id this w h =
           Throw (mkError "Id value should be unique") h)
      /\ (Builder.pseudoElement (builder o) <> "" ->
         MySuperBaseElementSelector.pseudoElement this w h =
           Throw (mkError "PseudoElement value should be unique") h))
  /\ (forall (h : heap) (v w : string),
      (s ← cssSelectorBuilder.id v; MySuperBaseElementSelector.id s w) h =
        Throw (mkError "Id value should be unique")
          (h ++ [mkSelector (Builder.mk "" ("#" +:+ v) [] "" [] "" []) [Onumber 2]]))
  /\ (forall (h : heap) (v w : string),
      (s ← cssSelectorBuilder.pseudoElement v;
       MySuperBaseElementSelector.pseudoElement s w) h =
        Throw (mkError "PseudoElement value should be unique")
          (h ++ [mkSelector (Builder.mk "" "" [] "" [] ("::" +:+ v) [])
                   [Ostring ("::" +:+ v)]])).
Proof.
  split; [exact element_after_empty_element|].
  split; [reflexivity|].
  split; [unfold DuplicateError; simpl; intros [H|[H|H]]; discriminate|].
  split; [|split].
  - intros h this o w Hthis. repeat split.
    + intros Hs.
      change (invoke this (Element w) h = Throw (mkError "Element value should be unique") h).
      rewrite (invoke_effect _ _ _ Hthis (Element w)). simpl.
      by rewrite (nonempty_truthy _ Hs).
    + intros Hs Ho.
      change (invoke this (Element w) h = Throw (mkError "Wrong order") h).
      rewrite (invoke_effect _ _ _ Hthis (Element w)). simpl. rewrite Hs. simpl.
      by destruct (order o).
    + intros Hs.
      change (invoke this (Id w) h = Throw (mkError "Id value should be unique") h).
      rewrite (invoke_effect _ _ _ Hthis (Id w)). simpl.
      by rewrite (nonempty_truthy _ Hs).
    + intros Hs.
      change (invoke this (PseudoElement w) h =
                Throw (mkError "PseudoElement value should be unique") h).
      rewrite (invoke_effect _ _ _ Hthis (PseudoElement w)). simpl.
      by rewrite (nonempty_truthy _ Hs).
  - intros h v w.
    change ((s ← facade (Id v); invoke s (Id w)) h =
      Throw (mkError "Id value should be unique")
        (h ++ [mkSelector (Builder.mk "" (String "#" v) [] "" [] "" []) [Onumber 2]])).
    by rewrite build_two, build_run.
  - intros h v w.
    change ((s ← facade (PseudoElement v); invoke s (PseudoElement w)) h =
      Throw (mkError "PseudoElement value should be unique")
        (h ++ [mkSelector (Builder.mk "" "" [] "" [] (String ":" (String ":" v)) [])
                 [Ostring (String ":" (String ":" v))]])).
    by rewrite build_two, build_run.
Qed.

Lemma element_twice_after_empty_name_witness :
  [mkSelector (Builder.mk "table" "" [] "" [] "" []) [Onumber 1]] !! 0%nat =
    Some (mkSelector (Builder.mk "table" "" [] "" [] "" []) [Onumber 1])
  /\ MySuperBaseElementSelector.element 0%nat "div"
       [mkSelector (Builder.mk "table" "" [] "" [] "" []) [Onumber 1]] =
     Throw (mkError "Element value should be unique")
       [mkSelector (Builder.mk "table" "" [] "" [] "" []) [Onumber 1]].
Proof.
  split; [reflexivity|].
  refine (proj1 (proj1 (proj2 (proj2 (proj2 element_twice_after_empty_name)))
                   [mkSelector (Builder.mk "table" "" [] "" [] "" []) [Onumber 1]]
                   0%nat _ "div" eq_refl) _).
  simpl. discriminate.
Defined.

(** ** Rendering of a selector built from parts *)

Lemma append_nil_r (s : string) : s +:+ "" = s.
Proof.
  induction s as [|c s IH]; [done|].
  change (String c (s +:+ "") = String c s). by rewrite IH.
Qed.

Lemma append_assoc (s t u : string) : (s +:+ t) +:+ u = s +:+ (t +:+ u).
Proof.
  induction s as [|c s IH]; [done|].
  change (String c ((s +:+ t) +:+ u) = String c (s +:+ (t +:+ u))). by rewrite IH.
Qed.

Lemma append_if_truthy (sel s : string) :
  (if negb (String.eqb s "") then sel +:+ s else sel) = sel +:+ s.
Proof.
  destruct (String.eqb_spec s "") as [->|_]; simpl; by rewrite ?append_nil_r.
Qed.

Lemma join_parts (before : string) (l : list string) :
  JS.join "" (map (String.append before) l) = Spec.parts before l.
Proof.
  induction l as [|s l IH]; [done|].
  destruct l as [|t l].
  - change (before +:+ s = before +:+ s +:+ ""). by rewrite append_nil_r.
  - change ((before +:+ s) +:+ JS.join "" (map (String.append before) (t :: l))
            = before +:+ s +:+ Spec.parts before (t :: l)).
    by rewrite IH, append_assoc.
Qed.

Lemma rendering_represents o p : represents o p -> rendering o = Spec.stringify p.
Proof.
  intros (He & Hi & Hc & Ha & Hpc & Hpe & Hcomb).
  unfold rendering. rewrite Hcomb. simpl.
  unfold MySuperBaseElementSelector.append_key. simpl.
  rewrite !append_if_truthy, He, Hi, Hc, Ha, Hpc, Hpe, Hcomb, !join_parts. simpl.
  unfold Spec.stringify. by rewrite append_nil_r, !append_assoc.
Qed.

Lemma represents_constructor : represents MySuperBaseElementSelector.constructor Spec.empty.
Proof. by repeat split. Qed.

Lemma effect_represents c o o' p :
  represents o p -> effect c o = inr o' -> represents o' (Spec.add p c).
Proof.
  intros (He & Hi & Hc & Ha & Hpc & Hpe & Hcomb).
  destruct c; simpl;
    case_tests discriminate;
    intros [= <-]; unfold represents; simpl;
    rewrite ?He, ?Hi, ?Hc, ?Ha, ?Hpc, ?Hpe, ?Hcomb, ?map_app, ?append_nil_r;
    by repeat split.
Qed.

Lemma run_represents cs : forall o o' p,
  represents o p -> run cs o = (o', None) -> represents o' (fold_left Spec.add cs p).
Proof.
  induction cs as [|c cs IH]; intros o o' p Hp Hrun; simpl in *.
  - by injection Hrun as <-.
  - destruct (effect c o) as [e|o1] eqn:Hc; [done|].
    apply (IH o1); [by eapply effect_represents | done].
Qed.

(** Part-adding calls made one by one on a selector, with errors caught,
    leave it holding the parts of the calls that returned. *)
Lemma calls_represent (l : loc) cs : forall (h : heap) o p,
  h !! l = Some o -> represents o p ->
  exists o',
    perform_all (map (Add l) cs) h !! l = Some o'
    /\ represents o' (fold_left Spec.add (returned l cs h) p).
Proof.
  induction cs as [|c cs IH]; intros h o p Hl Hp; [by exists o|].
  simpl. rewrite (invoke_effect h l o Hl).
  destruct (effect c o) as [e|o1] eqn:Hc; simpl.
  - by apply (IH h o p).
  - apply (IH _ o1); [by eapply lookup_updated | by eapply effect_represents].
Qed.

(** C3: a selector built by part-adding calls alone stringifies to its
    parts in the order element, id, classes, attribute, pseudo-classes,
    pseudo-element, each with its punctuation and nothing in between: so
    after a chain of calls that returns, and so after calls made one by
    one of which some threw, for the parts of the calls that returned.
    The chain of the specification's example gives the expected string. *)
Theorem stringify_parts :
  (forall c cs (h h' : heap) (l : loc),
      build c cs h = Normal l h' ->
      MySuperBaseElementSelector.stringify l h' =
        Normal (Spec.stringify (fold_left Spec.add (c :: cs) Spec.empty)) h')
  /\ (forall c cs (h h1 : heap) (l : loc),
      facade c h = Normal l h1 ->
      MySuperBaseElementSelector.stringify l (perform_all (map (Add l) cs) h1) =
        Normal (Spec.stringify (fold_left Spec.add (c :: returned l cs h1) Spec.empty))
          (perform_all (map (Add l) cs) h1))
  /\ (s ← build (Element "a") example_chain; MySuperBaseElementSelector.stringify s) [] =
       Normal ("a#main.container.editable[href$=" +:+ dquote +:+ ".png" +:+ dquote
               +:+ "]:focus::before")
         [example_selector].
Proof.
  split; [|split; [|reflexivity]].
  - intros c cs h h' l. rewrite build_run. intros Hrun.
    destruct (run (c :: cs) _) as [o' [e|]] eqn:Hr; [done|].
    injection Hrun as <- <-.
    rewrite (stringify_this _ _ o') by apply lookup_fresh.
    f_equal. apply rendering_represents.
    by apply (run_represents (c :: cs) _ o' _ represents_constructor).
  - intros c cs h h1 l. rewrite facade_invoke.
    rewrite (invoke_effect _ _ _ (lookup_fresh h _)).
    destruct (effect c _) as [e|o1] eqn:Hc; [done|].
    rewrite insert_fresh. intros [= <- <-].
    destruct (calls_represent (length h) cs (h ++ [o1]) o1 (Spec.add Spec.empty c))
      as (o' & Hl & Hp).
    + apply lookup_fresh.
    + by apply (effect_represents c _ o1 _ represents_constructor).
    + rewrite (stringify_this _ _ o' Hl). f_equal. by apply rendering_represents.
Qed.

Lemma stringify_parts_witness :
  build (Id "main") [Class "container"; Class "editable"] [] =
    Normal 0%nat
      [mkSelector (Builder.mk "" "#main" [".container"; ".editable"] "" [] "" [])
                  [Onumber 2; Oarray Builder.Kclass; Oarray Builder.Kclass]]
  /\ MySuperBaseElementSelector.stringify 0%nat
       [mkSelector (Builder.mk "" "#main" [".container"; ".editable"] "" [] "" [])
                   [Onumber 2; Oarray Builder.Kclass; Oarray Builder.Kclass]] =
     Normal "#main.container.editable"
       [mkSelector (Builder.mk "" "#main" [".container"; ".editable"] "" [] "" [])
                   [Onumber 2; Oarray Builder.Kclass; Oarray Builder.Kclass]].
Proof.
  split; [reflexivity|].
  exact (proj1 stringify_parts (Id "main") [Class "container"; Class "editable"] []
           _ 0%nat eq_refl).
Defined.

(** ** Combination and aliasing *)

Lemma stringify_cases (h : heap) (l : loc) :
  MySuperBaseElementSelector.stringify l h =
    match h !! l with
    | Some o => Normal (rendering o) h
    | None => Dangling
    end.
Proof.
  destruct (h !! l) as [o|] eqn:Hl; [by apply stringify_this|].
  unfold MySuperBaseElementSelector.stringify, mbind, M_bind, deref. by rewrite Hl.
Qed.

Lemma invoke_dangling (h : heap) (this : loc) c :
  h !! this = None -> invoke this c h = Dangling.
Proof.
  intros Hl. destruct c; simpl; unfold_methods; unfold mbind, M_bind, deref;
    by rewrite Hl.
Qed.

(** [combine] on an allocated [this] whose first operand is allocated. *)
Lemma combine_this (h : heap) (this s1 s2 : loc) (k : string) (o o1 : Selector) :
  h !! this = Some o -> h !! s1 = Some o1 ->
  MySuperBaseElementSelector.combine this s1 k s2 h =
    let o' := with_builder (Builder.push_combiner k)
                (with_builder (Builder.push_combiner (rendering o1)) o) in
    match <[this := o']> h !! s2 with
    | Some o2 =>
        Normal this (<[this := with_builder (Builder.push_combiner (rendering o2)) o']> h)
    | None => Dangling
    end.
Proof.
  intros Hthis H1. unfold MySuperBaseElementSelector.combine.
  unfold mbind at 1, M_bind at 1. rewrite stringify_cases, H1.
  unfold mbind at 1, M_bind at 1. rewrite (update_this h this o Hthis).
  unfold mbind at 1, M_bind at 1. unfold update at 1.
  rewrite (lookup_updated h this o Hthis), list_insert_insert_eq.
  unfold mbind at 1, M_bind at 1. rewrite stringify_cases.
  set (o' := with_builder _ (with_builder _ o)). cbv zeta.
  destruct (<[this := o']> h !! s2) as [o2|]; [|done].
  unfold mbind, M_bind, update.
  by rewrite (lookup_updated h this o Hthis), list_insert_insert_eq.
Qed.

Lemma combine_dangling (h : heap) (this s1 s2 : loc) (k : string) :
  h !! this = None \/ h !! s1 = None ->
  MySuperBaseElementSelector.combine this s1 k s2 h = Dangling.
Proof.
  intros Hd. unfold MySuperBaseElementSelector.combine.
  unfold mbind at 1, M_bind at 1. rewrite stringify_cases.
  destruct (h !! s1) as [o1|]; [|done].
  destruct Hd as [Hd|Hd]; [|done].
  unfold mbind at 1, M_bind at 1. unfold update at 1. by rewrite Hd.
Qed.

(** A method call writes to no object but [this]. *)
Lemma perform_frame (x : action) (h : heap) (l : loc) :
  target x <> l -> heap_after (perform x h) h !! l = h !! l.
Proof.
  intros Hne. destruct x as [this c | this s1 k s2]; simpl in *.
  - destruct (h !! this) as [o|] eqn:Hthis.
    + rewrite (invoke_effect h this o Hthis).
      destruct (effect c o); simpl; [done | by apply list_lookup_insert_ne].
    + by rewrite invoke_dangling.
  - destruct (h !! this) as [o|] eqn:Hthis; [|by rewrite combine_dangling; auto].
    destruct (h !! s1) as [o1|] eqn:H1; [|by rewrite combine_dangling; auto].
    rewrite (combine_this h this s1 s2 k o o1 Hthis H1). cbv zeta.
    destruct (_ !! s2); simpl; [by apply list_lookup_insert_ne | done].
Qed.

Lemma perform_all_frame (xs : list action) (l : loc) : forall h : heap,
  Forall (fun x => target x <> l) xs -> perform_all xs h !! l = h !! l.
Proof.
  induction xs as [|x xs IH]; intros h Hxs; [done|].
  inversion Hxs as [|? ? Hx Hxs']; subst. simpl.
  rewrite IH by done. by apply perform_frame.
Qed.

(** The facade's [combine] on two allocated selectors. *)
Lemma facade_combine (h : heap) (a b : loc) (c : string) (oa ob : Selector) :
  h !! a = Some oa -> h !! b = Some ob ->
  cssSelectorBuilder.combine a c b h =
    Normal (length h)
      (h ++ [mkSelector (Builder.mk "" "" [] "" [] "" [rendering oa; c; rendering ob]) []]).
Proof.
  intros Ha Hb. unfold cssSelectorBuilder.combine, MySuperBaseElementSelector.new.
  unfold mbind at 1, M_bind at 1, alloc.
  rewrite (combine_this _ _ a b c MySuperBaseElementSelector.constructor oa);
    [|apply lookup_fresh|by apply lookup_app_l_Some].
  cbv zeta. rewrite insert_fresh.
  rewrite (lookup_app_l_Some _ _ _ _ Hb). by rewrite insert_fresh.
Qed.

Lemma stringify_Normal (h h' : heap) (l : loc) (s : string) :
  MySuperBaseElementSelector.stringify l h = Normal s h' ->
  exists o, h !! l = Some o /\ rendering o = s /\ h' = h.
Proof.
  rewrite stringify_cases. destruct (h !! l) as [o|]; [|done].
  intros [= <- <-]. by exists o.
Qed.

Lemma rendering_combined (sa c sb : string) :
  rendering (mkSelector (Builder.mk "" "" [] "" [] "" [sa; c; sb]) []) =
    sa +:+ " " +:+ c +:+ " " +:+ sb.
Proof. reflexivity. Qed.

Lemma combine_then_stringify (h : heap) (a b : loc) (c sa sb : string) :
  MySuperBaseElementSelector.stringify a h = Normal sa h ->
  MySuperBaseElementSelector.stringify b h = Normal sb h ->
  (s ← cssSelectorBuilder.combine a c b; MySuperBaseElementSelector.stringify s) h =
    Normal (sa +:+ " " +:+ c +:+ " " +:+ sb)
      (h ++ [mkSelector (Builder.mk "" "" [] "" [] "" [sa; c; sb]) []]).
Proof.
  intros (oa & Ha & <- & _)%stringify_Normal (ob & Hb & <- & _)%stringify_Normal.
  unfold mbind, M_bind. rewrite (facade_combine h a b c oa ob Ha Hb).
  rewrite (stringify_this _ _ _ (lookup_fresh h _)). by rewrite rendering_combined.
Qed.

(** C4: the string of [combine(a, c, b)] is the string of [a], a space, the
    combinator, a space, and the string of [b]; a combination used as an
    operand contributes its own string, whole; and the example of the
    specification gives its expected string. *)
Theorem combine_stringify :
  (forall (h : heap) (a b : loc) (c sa sb : string),
      MySuperBaseElementSelector.stringify a h = Normal sa h ->
      MySuperBaseElementSelector.stringify b h = Normal sb h ->
      (s ← cssSelectorBuilder.combine a c b; MySuperBaseElementSelector.stringify s) h =
        Normal (sa +:+ " " +:+ c +:+ " " +:+ sb)
          (h ++ [mkSelector (Builder.mk "" "" [] "" [] "" [sa; c; sb]) []]))
  /\ (forall (h : heap) (a b d : loc) (c1 c2 sa sb sd : string),
      MySuperBaseElementSelector.stringify a h = Normal sa h ->
      MySuperBaseElementSelector.stringify b h = Normal sb h ->
      MySuperBaseElementSelector.stringify d h = Normal sd h ->
      exists h',
        (inner ← cssSelectorBuilder.combine b c2 d;
         s ← cssSelectorBuilder.combine a c1 inner;
         MySuperBaseElementSelector.stringify s) h =
          Normal (sa +:+ " " +:+ c1 +:+ " " +:+ (sb +:+ " " +:+ c2 +:+ " " +:+ sd)) h')
  /\ (a ← (s ← cssSelectorBuilder.element "div"; MySuperBaseElementSelector.id s "main");
      b ← (s ← cssSelectorBuilder.element "table"; MySuperBaseElementSelector.id s "data");
      s ← cssSelectorBuilder.combine a "+" b;
      MySuperBaseElementSelector.stringify s) [] =
       Normal "div#main + table#data"
         [mkSelector (Builder.mk "div" "#main" [] "" [] "" []) [Onumber 1; Onumber 2];
          mkSelector (Builder.mk "table" "#data" [] "" [] "" []) [Onumber 1; Onumber 2];
          mkSelector (Builder.mk "" "" [] "" [] "" ["div#main"; "+"; "table#data"]) []].
Proof.
  split; [exact combine_then_stringify | split; [|reflexivity]].
  intros h a b d c1 c2 sa sb sd Ha Hb Hd.
  destruct (stringify_Normal _ _ _ _ Ha) as (oa & Hoa & <- & _).
  destruct (stringify_Normal _ _ _ _ Hb) as (ob & Hob & <- & _).
  destruct (stringify_Normal _ _ _ _ Hd) as (od & Hod & <- & _).
  eexists. unfold mbind at 1, M_bind at 1.
  rewrite (facade_combine h b d c2 ob od Hob Hod).
  rewrite (combine_then_stringify _ a (length h) c1 (rendering oa)
             (rendering ob +:+ " " +:+ c2 +:+ " " +:+ rendering od));
    [reflexivity| |].
  - rewrite stringify_cases. by rewrite (lookup_app_l_Some _ _ _ _ Hoa).
  - rewrite stringify_cases, lookup_fresh. by rewrite rendering_combined.
Qed.

Lemma combine_stringify_witness :
  MySuperBaseElementSelector.stringify 0%nat
    [mkSelector (Builder.mk "div" "" [] "" [] "" []) [Onumber 1]] =
    Normal "div" [mkSelector (Builder.mk "div" "" [] "" [] "" []) [Onumber 1]]
  /\ (s ← cssSelectorBuilder.combine 0%nat ">" 0%nat;
      MySuperBaseElementSelector.stringify s)
       [mkSelector (Builder.mk "div" "" [] "" [] "" []) [Onumber 1]] =
     Normal "div > div"
       [mkSelector (Builder.mk "div" "" [] "" [] "" []) [Onumber 1];
        mkSelector (Builder.mk "" "" [] "" [] "" ["div"; ">"; "div"]) []].
Proof.
  split; [reflexivity|].
  exact (proj1 combine_stringify
           [mkSelector (Builder.mk "div" "" [] "" [] "" []) [Onumber 1]]
           0%nat 0%nat ">" "div" "div" eq_refl eq_refl).
Defined.

(** C6: [combine] keeps the strings of its operands, not the operands.  The
    facade's [combine] allocates one selector whose [combiner] holds the
    string [a] has at that moment, the combinator, and the string [b] has at
    that moment, and it leaves the fields of both operands as they were.
    Whatever is done afterwards to the operands, by part-adding calls or by
    [combine] calls on them, the combination keeps those three strings and
    stringifies to the string it had: the two operand strings of the moment
    of the call, around the combinator. *)
Theorem combine_captures_strings (h : heap) (a b : loc) (c sa sb : string)
    (oa ob : Selector) :
  h !! a = Some oa -> h !! b = Some ob ->
  MySuperBaseElementSelector.stringify a h = Normal sa h ->
  MySuperBaseElementSelector.stringify b h = Normal sb h ->
  let s := length h in
  let os := mkSelector (Builder.mk "" "" [] "" [] "" [sa; c; sb]) [] in
  let h1 := h ++ [os] in
  cssSelectorBuilder.combine a c b h = Normal s h1
  /\ h1 !! a = Some oa /\ h1 !! b = Some ob
  /\ MySuperBaseElementSelector.stringify s h1 =
       Normal (sa +:+ " " +:+ c +:+ " " +:+ sb) h1
  /\ forall xs : list action,
      Forall (fun x => target x = a \/ target x = b) xs ->
      perform_all xs h1 !! s = Some os
      /\ MySuperBaseElementSelector.stringify s (perform_all xs h1) =
           Normal (sa +:+ " " +:+ c +:+ " " +:+ sb) (perform_all xs h1).
Proof.
  intros Ha Hb Hsa Hsb s os h1.
  rewrite stringify_cases, Ha in Hsa. injection Hsa as <-.
  rewrite stringify_cases, Hb in Hsb. injection Hsb as <-.
  split; [by apply facade_combine|].
  split; [by apply lookup_app_l_Some|]. split; [by apply lookup_app_l_Some|].
  split; [by rewrite stringify_cases; unfold h1, s; rewrite lookup_fresh|].
  intros xs Hxs.
  assert (perform_all xs h1 !! s = Some os) as Hs.
  { rewrite perform_all_frame; [apply lookup_fresh|].
    apply lookup_lt_Some in Ha, Hb.
    eapply Forall_impl; [exact Hxs|]. unfold s. simpl. intros x [-> | ->]; lia. }
  split; [done|]. by rewrite stringify_cases, Hs.
Qed.

Lemma combine_captures_strings_witness :
  let h := [mkSelector (Builder.mk "div" "" [] "" [] "" []) [Onumber 1];
            mkSelector (Builder.mk "" "#data" [] "" [] "" []) [Onumber 2]] in
  let os := mkSelector (Builder.mk "" "" [] "" [] "" ["div"; "+"; "#data"]) [] in
  cssSelectorBuilder.combine 0%nat "+" 1%nat h = Normal 2%nat (h ++ [os])
  /\ (h ++ [os]) !! 0%nat = Some (mkSelector (Builder.mk "div" "" [] "" [] "" []) [Onumber 1])
  /\ (h ++ [os]) !! 1%nat = Some (mkSelector (Builder.mk "" "#data" [] "" [] "" []) [Onumber 2])
  /\ MySuperBaseElementSelector.stringify 2%nat (h ++ [os]) =
       Normal "div + #data" (h ++ [os])
  /\ forall xs : list action,
      Forall (fun x => target x = 0%nat \/ target x = 1%nat) xs ->
      perform_all xs (h ++ [os]) !! 2%nat = Some os
      /\ MySuperBaseElementSelector.stringify 2%nat (perform_all xs (h ++ [os])) =
           Normal "div + #data" (perform_all xs (h ++ [os])).
Proof.
  exact (combine_captures_strings
           [mkSelector (Builder.mk "div" "" [] "" [] "" []) [Onumber 1];
            mkSelector (Builder.mk "" "#data" [] "" [] "" []) [Onumber 2]]
           0%nat 1%nat "+" "div" "#data" _ _ eq_refl eq_refl eq_refl eq_refl).
Defined.

(** C10: [stringify] only observes.  On every selector it returns its
    string and leaves the heap, hence every field of the selector, as it
    was; called twice in a row it returns the same string twice. *)
Theorem stringify_pure (h : heap) (this : loc) (o : Selector) :
  h !! this = Some o ->
  exists s : string,
    MySuperBaseElementSelector.stringify this h = Normal s h
    /\ (s1 ← MySuperBaseElementSelector.stringify this;
        s2 ← MySuperBaseElementSelector.stringify this;
        mret (s1, s2)) h = Normal (s, s) h.
Proof.
  intros Hthis. exists (rendering o). unfold mbind, M_bind.
  by rewrite !(stringify_this h this o Hthis).
Qed.

Lemma stringify_pure_witness :
  exists s : string,
    MySuperBaseElementSelector.stringify 0%nat
      [mkSelector (Builder.mk "a" "#main" [".c"] "" [] "" [])
                  [Onumber 1; Onumber 2; Oarray Builder.Kclass]] =
      Normal s [mkSelector (Builder.mk "a" "#main" [".c"] "" [] "" [])
                  [Onumber 1; Onumber 2; Oarray Builder.Kclass]]
    /\ (s1 ← MySuperBaseElementSelector.stringify 0%nat;
        s2 ← MySuperBaseElementSelector.stringify 0%nat;
        mret (s1, s2))
         [mkSelector (Builder.mk "a" "#main" [".c"] "" [] "" [])
                  [Onumber 1; Onumber 2; Oarray Builder.Kclass]] =
       Normal (s, s)
         [mkSelector (Builder.mk "a" "#main" [".c"] "" [] "" [])
                  [Onumber 1; Onumber 2; Oarray Builder.Kclass]].
Proof.
  exact (stringify_pure
           [mkSelector (Builder.mk "a" "#main" [".c"] "" [] "" [])
                       [Onumber 1; Onumber 2; Oarray Builder.Kclass]]
           0%nat _ eq_refl).
Defined.

(** ** Round trip through JSON text *)

Module Binary64Facts.

(** Division in the Standard Library's specification of binary64
    arithmetic, where the quotient is a binary64 number. *)

Lemma iter_pos_iter {A} (f : A -> A) (p : positive) : forall x,
  SpecFloat.iter_pos f p x = Pos.iter f x p.
Proof.
  induction p as [p IH|p IH|]; intros x; simpl; [|by rewrite !IH|done].
  by rewrite !IH, !Pos.iter_swap.
Qed.

(** Shifting out zeros loses nothing. *)
Lemma shr_zeros (p : positive) (m : positive) :
  SpecFloat.iter_pos shr_1 p (Build_shr_record (Zpos m * 2 ^ Zpos p) false false)
  = Build_shr_record (Zpos m) false false.
Proof.
  rewrite iter_pos_iter. revert m.
  induction p as [|p IH] using Pos.peano_ind; intros m.
  - simpl. by rewrite Pos.mul_comm.
  - rewrite Pos.iter_succ, Pos2Z.inj_succ, Z.pow_succ_r by lia.
    replace (Zpos m * (2 * 2 ^ Zpos p)) with (Zpos (m~0) * 2 ^ Zpos p) by lia.
    by rewrite IH.
Qed.

Lemma Zdigits2_log2 (p : positive) : Zdigits2 (Zpos p) = Z.log2 (Zpos p) + 1.
Proof.
  simpl. induction p as [p IH|p IH|]; [| |done].
  - simpl digits2_pos. rewrite Pos2Z.inj_succ, IH. destruct p; simpl; lia.
  - simpl digits2_pos. rewrite Pos2Z.inj_succ, IH. destruct p; simpl; lia.
Qed.

Lemma bounded_canonical m e :
  bounded prec emax m e = true ->
  fexp prec emax (Zdigits2 (Zpos m) + e) = e /\ e <= emax - prec.
Proof.
  unfold bounded, canonical_mantissa. intros [H1 H2]%andb_true_iff.
  apply Z.eqb_eq in H1. apply Z.leb_le in H2. done.
Qed.

(** An exact number with zeros at its end rounds to the number. *)
Lemma binary_round_aux_exact (m M : positive) (e n : Z) :
  bounded prec emax m e = true -> 0 <= n -> Zpos M = Zpos m * 2 ^ n ->
  binary_round_aux prec emax false (Zpos M) (e - n) loc_Exact = S754_finite false m e.
Proof.
  intros [Hc He]%bounded_canonical Hn HM. unfold binary_round_aux, shr_fexp.
  rewrite (Zdigits2_log2 M), HM, Z.log2_mul_pow2 by lia.
  replace (n + Z.log2 (Zpos m) + 1 + (e - n)) with (Zdigits2 (Zpos m) + e)
    by (rewrite Zdigits2_log2; lia).
  rewrite Hc. replace (e - (e - n)) with n by lia.
  assert (shr (shr_record_of_loc (Zpos m * 2 ^ n) loc_Exact) (e - n) n
          = (Build_shr_record (Zpos m) false false, e)) as ->.
  { destruct n as [|p|p]; [|  |lia].
    - simpl. rewrite Z.sub_0_r. do 2 f_equal. lia.
    - unfold shr. simpl shr_record_of_loc. rewrite shr_zeros. f_equal. lia. }
  simpl shr_m. simpl loc_of_shr_record. simpl round_nearest_even.
  rewrite Hc, Z.sub_diag. simpl.
  destruct (Z.leb_spec e (emax - prec)); [done | lia].
Qed.

Lemma fexp_mono a b : a <= b -> fexp prec emax a <= fexp prec emax b.
Proof. unfold fexp. lia. Qed.

(** The quotient of two integers that is a binary64 number is what their
    division gives. *)
Lemma SFdiv_exact (m A B : positive) (e : Z) :
  bounded prec emax m e = true ->
  Zpos A * 2 ^ Z.max (- e) 0 = Zpos m * 2 ^ Z.max e 0 * Zpos B ->
  SFdiv prec emax (S754_finite false A 0) (S754_finite false B 0) = S754_finite false m e.
Proof.
  intros Hb HAB. pose proof (bounded_canonical m e Hb) as [Hc He].
  unfold SFdiv, SFdiv_core_binary.
  set (e' := Z.min (fexp prec emax (Zdigits2 (Zpos A) + 0 - (Zdigits2 (Zpos B) + 0))) (0 - 0)).
  assert (e' <= 0) as He0 by (unfold e'; lia).
  assert (e' <= e) as Hee.
  { destruct (Z.le_gt_cases 0 e); [lia|].
    rewrite Z.max_l, Z.max_r, Z.pow_0_r, Z.mul_1_r in HAB by lia.
    assert (Z.log2 (Zpos A) + - e <= Z.log2 (Zpos m) + Z.log2 (Zpos B) + 1) as Hlog.
    { rewrite Z.add_comm, <- Z.log2_mul_pow2, HAB by lia. apply Z.log2_mul_above; lia. }
    unfold e'. etransitivity; [apply Z.le_min_l|]. rewrite <- Hc.
    apply fexp_mono. rewrite !Zdigits2_log2. lia. }
  replace (0 - 0 - e') with (- e') by lia.
  assert (match - e' with
          | 0 => Zpos A
          | Zpos _ => Z.shiftl (Zpos A) (- e')
          | Zneg _ => 0
          end = Zpos A * 2 ^ (- e')) as ->.
  { destruct (- e') eqn:Hs; [lia| |lia]. rewrite Z.shiftl_mul_pow2; lia. }
  assert (Zpos A * 2 ^ (- e') = Zpos m * 2 ^ (e - e') * Zpos B) as Hq.
  { destruct (Z.le_gt_cases 0 e).
    - rewrite Z.max_r, Z.max_l, Z.pow_0_r, Z.mul_1_r in HAB by lia. rewrite HAB.
      replace (e - e') with (e + - e') by lia. rewrite Z.pow_add_r by lia. lia.
    - rewrite Z.max_l, Z.max_r, Z.pow_0_r, Z.mul_1_r in HAB by lia.
      replace (- e') with (- e + (e - e')) by lia. rewrite Z.pow_add_r by lia.
      rewrite Z.mul_assoc, HAB. lia. }
  assert (Z.div_eucl (Zpos A * 2 ^ (- e')) (Zpos B) = (Zpos m * 2 ^ (e - e'), 0)) as ->.
  { pose proof (Z.div_eucl_eq (Zpos A * 2 ^ (- e')) (Zpos B) ltac:(lia)) as Heq.
    pose proof (Z.mod_pos_bound (Zpos A * 2 ^ (- e')) (Zpos B) ltac:(lia)) as Hr.
    unfold Z.modulo in Hr.
    destruct (Z.div_eucl (Zpos A * 2 ^ (- e')) (Zpos B)) as [q r].
    rewrite Hq in Heq.
    assert (r = 0) as ->.
    { assert (r = Zpos B * (Zpos m * 2 ^ (e - e') - q)) as Hr' by lia.
      destruct (Z.eq_dec (Zpos m * 2 ^ (e - e') - q) 0); [lia|]. nia. }
    f_equal. nia. }
  assert (new_location (Zpos B) 0 = loc_Exact) as ->.
  { unfold new_location, new_location_even, new_location_odd. by destruct (Z.even _). }
  assert (0 < Zpos m * 2 ^ (e - e')) as Hpos by (apply Z.mul_pos_pos; [lia | apply Z.pow_pos_nonneg; lia]).
  destruct (Zpos m * 2 ^ (e - e')) as [|M|M] eqn:HM; [lia| |lia].
  replace e' with (e - (e - e')) at 1 by lia.
  apply binary_round_aux_exact; [done | lia | done].
Qed.

End Binary64Facts.

Module JSONFacts.
Import JSON JSONText Binary64Facts.
#[local] Open Scope N_scope.

Lemma text_eqb_eq (s t : text) : text_eqb s t = true <-> s = t.
Proof.
  revert t. induction s as [|c s IH]; intros [|d t]; simpl; try done.
  rewrite andb_true_iff, N.eqb_eq, IH. split; [intros [-> ->]; done | intros [= -> ->]; done].
Qed.

Lemma text_eqb_refl (s : text) : text_eqb s s = true.
Proof. by apply text_eqb_eq. Qed.

Lemma same_float_eq (x y : spec_float) : same_float x y = true -> x = y.
Proof.
  destruct x as [s|s| |s m e], y as [s'|s'| |s' m' e']; simpl; try done.
  - by intros ->%Bool.eqb_prop.
  - by intros ->%Bool.eqb_prop.
  - intros [[->%Bool.eqb_prop ->%Pos.eqb_eq]%andb_true_iff ->%Z.eqb_eq]%andb_true_iff.
    done.
Qed.

(** *** Decimal digits *)

Lemma read_digits_app ds rest :
  digits ds -> stop rest -> read_digits (ds ++ rest) = (ds, rest).
Proof.
  intros Hds Hrest. induction Hds as [|c ds Hc _ IH]; simpl.
  - destruct rest as [|c rest]; [done|]. simpl in *. by rewrite Hrest.
  - by rewrite Hc, IH.
Qed.

Lemma digits_uint_codes d : digits (uint_codes d).
Proof. induction d; simpl; constructor; done. Qed.

Lemma digits_decimal n : digits (decimal n).
Proof. apply digits_uint_codes. Qed.

Lemma digits_zeros n : digits (zeros n).
Proof. unfold zeros. induction (Z.to_nat n); simpl; constructor; done. Qed.

Lemma value_from_cons acc c ds :
  value_from acc (c :: ds) = value_from (10 * acc + (c - 48)) ds.
Proof. reflexivity. Qed.

Lemma value_from_acc ds : forall acc,
  value_from acc ds = acc * 10 ^ N.of_nat (length ds) + value_from 0 ds.
Proof.
  induction ds as [|c ds IH]; intros acc.
  - simpl. lia.
  - rewrite !value_from_cons, IH, (IH (10 * 0 + (c - 48))).
    cbn [length]. rewrite Nat2N.inj_succ, N.pow_succ_r'. lia.
Qed.

Lemma digits_value_app a b :
  digits_value (a ++ b) = digits_value a * 10 ^ N.of_nat (length b) + digits_value b.
Proof.
  unfold digits_value. rewrite fold_left_app.
  apply (value_from_acc b).
Qed.

Lemma digits_value_zeros n : digits_value (zeros n) = 0.
Proof.
  unfold zeros, digits_value. induction (Z.to_nat n) as [|k IH]; [done|].
  simpl. exact IH.
Qed.

Lemma length_zeros n : length (zeros n) = Z.to_nat n.
Proof. apply repeat_length. Qed.

Lemma value_from_uint_acc d : forall acc : positive,
  value_from (Npos acc) (uint_codes d) = Npos (Pos.of_uint_acc d acc).
Proof.
  induction d; intros acc; cbn [uint_codes Pos.of_uint_acc]; [done|..];
    rewrite value_from_cons, <- IHd; f_equal; lia.
Qed.

Lemma value_from_uint d : value_from 0 (uint_codes d) = Pos.of_uint d.
Proof.
  induction d; cbn [uint_codes Pos.of_uint]; [done|..]; rewrite value_from_cons;
    [exact IHd | apply (value_from_uint_acc d)..].
Qed.

Lemma digits_value_decimal n : digits_value (decimal n) = n.
Proof.
  unfold decimal. change (digits_value ?x) with (value_from 0 x).
  rewrite value_from_uint. apply DecimalN.Unsigned.of_to.
Qed.

Lemma to_uint_normal (n : N) : Decimal.unorm (N.to_uint n) = N.to_uint n.
Proof.
  rewrite <- (DecimalN.Unsigned.of_to n) at 2.
  by rewrite DecimalN.Unsigned.to_of.
Qed.

Lemma decimal_nonempty n : decimal n <> [].
Proof.
  unfold decimal. pose proof (DecimalFacts.unorm_nonnil (N.to_uint n)) as Hnil.
  rewrite to_uint_normal in Hnil. by destruct (N.to_uint n).
Qed.

(** The digits of a positive number do not start with a zero. *)
Lemma decimal_head n :
  0 < n -> exists c tl, decimal n = c :: tl /\ c <> 48.
Proof.
  intros Hn. unfold decimal. pose proof (to_uint_normal n) as Hnorm.
  destruct (N.to_uint n) as [|u|u|u|u|u|u|u|u|u|u] eqn:Hu;
    try (eexists _, _; split; [reflexivity | done]).
  - pose proof (DecimalFacts.unorm_nonnil (Decimal.Nil)) as Hnil. by rewrite Hnorm in Hnil.
  - exfalso. rewrite DecimalFacts.unorm_D0 in Hnorm.
    destruct u as [|u'|u'|u'|u'|u'|u'|u'|u'|u'|u'] eqn:Hu';
      try (pose proof (DecimalFacts.nb_digits_unorm u) as Hle; subst u;
           rewrite Hnorm in Hle; simpl in Hle; specialize (Hle ltac:(done)); lia).
    assert (N.of_uint (N.to_uint n) = 0) as H0 by (by rewrite Hu).
    rewrite DecimalN.Unsigned.of_to in H0. lia.
Qed.

(** *** Number literals *)

Lemma delimited_stop rest : delimited rest -> stop rest.
Proof. destruct rest as [|c rest]; [done|]. by intros [-> | [-> | ->]]. Qed.

Lemma read_fraction_none rest :
  delimited rest -> read_fraction rest = Some ([], rest).
Proof. destruct rest as [|c rest]; [done|]. by intros [-> | [-> | ->]]. Qed.

Lemma read_exponent_none rest :
  delimited rest -> read_exponent rest = Some (0%Z, rest).
Proof. destruct rest as [|c rest]; [done|]. by intros [-> | [-> | ->]]. Qed.

Lemma read_fraction_digits c fs rest :
  digits (c :: fs) -> stop rest ->
  read_fraction (46 :: (c :: fs) ++ rest) = Some (c :: fs, rest).
Proof.
  intros Hfs Hrest. unfold read_fraction.
  by rewrite (read_digits_app _ _ Hfs Hrest).
Qed.

Lemma read_exponent_digits (n : Z) rest :
  stop rest ->
  read_exponent
    (101 :: (if (0 <=? n)%Z then 43 else 45) :: decimal (Z.to_N (Z.abs n)) ++ rest)
  = Some (n, rest).
Proof.
  intros Hrest. unfold read_exponent. cbn [N.eqb Pos.eqb orb].
  pose proof (decimal_nonempty (Z.to_N (Z.abs n))) as Hne.
  destruct (Z.leb_spec 0 n).
  - rewrite (read_digits_app _ _ (digits_decimal _) Hrest).
    destruct (decimal (Z.to_N (Z.abs n))) eqn:Hd; [done|]. rewrite <- Hd.
    rewrite digits_value_decimal.
    by rewrite Z2N.id, Z.abs_eq by (try apply Z.abs_nonneg; done).
  - rewrite (read_digits_app _ _ (digits_decimal _) Hrest).
    destruct (decimal (Z.to_N (Z.abs n))) eqn:Hd; [done|]. rewrite <- Hd.
    rewrite digits_value_decimal.
    rewrite Z2N.id, Z.abs_neq by (try apply Z.abs_nonneg; lia).
    by rewrite Z.opp_involutive.
Qed.

Lemma read_unsigned_parts negative ip l2 fp l3 ex l4 :
  read_digits (ip ++ l2) = (ip, l2) -> integer_part ip = true ->
  read_fraction l2 = Some (fp, l3) -> read_exponent l3 = Some (ex, l4) ->
  read_unsigned negative (ip ++ l2) =
    Parsed (round_decimal negative (digits_value (ip ++ fp))
              (ex - Z.of_nat (length fp)), l4).
Proof. intros Hrd Hip Hfr Hex. unfold read_unsigned. by rewrite Hrd, Hip, Hfr, Hex. Qed.

Lemma integer_part_head c l : c <> 48 -> integer_part (c :: l) = true.
Proof. intros Hc. destruct l; [done|]. simpl. by apply negb_true_iff, N.eqb_neq. Qed.

(** A decimal that ends in zeros has the Number value of the decimal
    without them and a greater exponent. *)
Lemma round_decimal_zeros negative (m : N) (z : Z) :
  (0 <= z)%Z ->
  round_decimal negative (m * 10 ^ N.of_nat (Z.to_nat z)) 0 = round_decimal negative m z.
Proof.
  intros Hz. unfold round_decimal.
  replace (Z.of_N (m * 10 ^ N.of_nat (Z.to_nat z)) * 10 ^ Z.max 0 0)%Z
    with (Z.of_N m * 10 ^ Z.max z 0)%Z.
  - by replace (Z.max (- z) 0) with (Z.max (- 0) 0) by lia.
  - rewrite N2Z.inj_mul, N2Z.inj_pow, nat_N_Z, Z2Nat.id by done.
    rewrite Z.max_l by done. change (Z.max 0 0) with 0%Z.
    by rewrite Z.pow_0_r, Z.mul_1_r.
Qed.

(** Reading the digits [Number::toString] laid out gives the Number value
    of the decimal they were the digits of. *)
Lemma read_unsigned_layout negative c tl (n : Z) rest :
  digits (c :: tl) -> c <> 48 -> delimited rest ->
  read_unsigned negative (layout (c :: tl) n ++ rest) =
    Parsed (round_decimal negative (digits_value (c :: tl))
              (n - Z.of_nat (length (c :: tl))), rest).
Proof.
  intros Hds Hc Hrest. unfold layout.
  set (ds := c :: tl) in *. set (k := Z.of_nat (length ds)).
  pose proof (delimited_stop _ Hrest) as Hstop.
  destruct ((k <=? n)%Z && (n <=? 21)%Z) eqn:H1.
  { apply andb_true_iff in H1 as [Hkn _]. apply Z.leb_le in Hkn.
    rewrite (read_unsigned_parts negative (ds ++ zeros (n - k)) rest [] rest 0%Z rest).
    - rewrite app_nil_r, digits_value_app, digits_value_zeros, length_zeros, N.add_0_r.
      by rewrite round_decimal_zeros by lia.
    - apply read_digits_app; [|done]. apply Forall_app. split; [done | apply digits_zeros].
    - by apply integer_part_head.
    - by apply read_fraction_none.
    - by apply read_exponent_none. }
  destruct ((0 <? n)%Z && (n <=? 21)%Z) eqn:H2.
  { apply andb_true_iff in H2 as [Hn Hn21]. apply Z.ltb_lt in Hn.
    apply andb_false_iff in H1 as [H1|H1]; [|congruence]. apply Z.leb_gt in H1.
    assert (Z.to_nat n < length ds)%nat as Hlt by (unfold k in H1; lia).
    destruct (drop (Z.to_nat n) ds) as [|f fs] eqn:Hdrop.
    { apply (f_equal length) in Hdrop. rewrite length_drop in Hdrop.
      change (length (@nil N)) with 0%nat in Hdrop. lia. }
    rewrite <- app_assoc. cbn [app].
    rewrite (read_unsigned_parts negative (take (Z.to_nat n) ds) _ (f :: fs) rest 0%Z rest).
    - rewrite <- Hdrop, take_drop, length_drop.
      by replace (0 - Z.of_nat (length ds - Z.to_nat n))%Z with (n - k)%Z by (unfold k; lia).
    - apply read_digits_app; [|done]. by apply Forall_take.
    - destruct (Z.to_nat n) as [|j] eqn:Hj; [lia|]. by apply integer_part_head.
    - apply read_fraction_digits; [|done]. rewrite <- Hdrop. by apply Forall_drop.
    - by apply read_exponent_none. }
  destruct ((-6 <? n)%Z && (n <=? 0)%Z) eqn:H3.
  { apply andb_true_iff in H3 as [_ Hn]. apply Z.leb_le in Hn.
    change (48 :: 46 :: zeros (- n) ++ ds) with ([48] ++ 46 :: zeros (- n) ++ ds).
    rewrite <- app_assoc.
    assert (exists f fs, zeros (- n) ++ ds = f :: fs) as (f & fs & Hf).
    { destruct (zeros (- n)); simpl; eauto. }
    change ((46 :: zeros (- n) ++ ds) ++ rest) with (46 :: (zeros (- n) ++ ds) ++ rest).
    rewrite Hf.
    rewrite (read_unsigned_parts negative [48] _ (f :: fs) rest 0%Z rest).
    - rewrite <- Hf. rewrite !digits_value_app. rewrite digits_value_zeros.
      change (digits_value [48]) with 0. rewrite length_app, length_zeros.
      rewrite N.mul_0_l, N.mul_0_l, !N.add_0_l.
      by replace (0 - Z.of_nat (Z.to_nat (- n) + length ds))%Z with (n - k)%Z
        by (unfold k; lia).
    - done.
    - done.
    - apply read_fraction_digits; [|done]. rewrite <- Hf. apply Forall_app.
      split; [apply digits_zeros | done].
    - by apply read_exponent_none. }
  unfold k, ds in *. clear k ds. inversion Hds as [|? ? Hcd Htl]; subst.
  destruct tl as [|f fs].
  - cbn [app].
    change (read_unsigned negative (c :: ?x)) with (read_unsigned negative ([c] ++ x)).
    erewrite (read_unsigned_parts negative [c] _ [] _ (n - 1)%Z rest).
    + rewrite app_nil_r. change (Z.of_nat (length (@nil N))) with 0%Z.
      change (Z.of_nat (length [c])) with 1%Z. by rewrite Z.sub_0_r.
    + simpl. by rewrite Hcd.
    + done.
    + reflexivity.
    + by apply read_exponent_digits.
  - cbn [app]. rewrite <- app_assoc. cbn [app].
    change (read_unsigned negative (c :: ?x)) with (read_unsigned negative ([c] ++ x)).
    erewrite (read_unsigned_parts negative [c] _ (f :: fs) _ (n - 1)%Z rest).
    + change ([c] ++ f :: fs) with (c :: f :: fs).
      by replace (n - 1 - Z.of_nat (length (f :: fs)))%Z
        with (n - Z.of_nat (length (c :: f :: fs)))%Z by (cbn [length]; lia).
    + simpl. by rewrite Hcd.
    + done.
    + apply (read_fraction_digits f fs (101 :: _)); done.
    + by apply read_exponent_digits.
Qed.

(** *** The Number value of the digits of a number *)

(** The digits of a binary64 number denote it. *)
Lemma exact_sound m e :
  bounded prec emax m e = true ->
  round_decimal false (fst (exact m e)) (snd (exact m e)) = S754_finite false m e.
Proof.
  intros Hb. pose proof (bounded_canonical m e Hb) as [_ He].
  unfold exact, round_decimal. destruct (Z.leb_spec 0 e) as [H0|H0]; cbn [fst snd].
  - rewrite N2Z.inj_mul, N2Z.inj_pow, Z2N.id by done.
    change (Z.max 0 0) with 0%Z. change (Z.max (- 0) 0) with 0%Z.
    rewrite Z.pow_0_r, Z.mul_1_r. change (Z.of_N 2) with 2%Z.
    change (Z.of_N (N.pos m)) with (Z.pos m).
    assert (0 < Z.pos m * 2 ^ e)%Z as Hpos
      by (apply Z.mul_pos_pos; [lia | apply Z.pow_pos_nonneg; lia]).
    destruct (Z.pos m * 2 ^ e)%Z as [|A|A] eqn:HA; [lia| |lia].
    apply SFdiv_exact; [done|].
    replace (Z.max (- e) 0) with 0%Z by lia. replace (Z.max e 0) with e by lia.
    rewrite Z.pow_0_r, HA. change (Z.to_pos 1) with 1%positive. lia.
  - rewrite N2Z.inj_mul, N2Z.inj_pow, Z2N.id by lia.
    replace (Z.max e 0) with 0%Z by lia. replace (Z.max (- e) 0) with (- e)%Z by lia.
    rewrite Z.pow_0_r, Z.mul_1_r.
    change (Z.of_N 5) with 5%Z. change (Z.of_N (N.pos m)) with (Z.pos m).
    assert (0 < Z.pos m * 5 ^ (- e))%Z as Hpos
      by (apply Z.mul_pos_pos; [lia | apply Z.pow_pos_nonneg; lia]).
    destruct (Z.pos m * 5 ^ (- e))%Z as [|A|A] eqn:HA; [lia| |lia].
    apply SFdiv_exact; [done|].
    replace (Z.max e 0) with 0%Z by lia. replace (Z.max (- e) 0) with (- e)%Z by lia.
    rewrite Z.pow_0_r, Z.mul_1_r, <- HA.
    rewrite Z2Pos.id by (apply Z.pow_pos_nonneg; lia).
    change 10%Z with (5 * 2)%Z. rewrite Z.pow_mul_l. lia.
Qed.

(** The digits that [shortest] finds denote the number. *)
Lemma candidate_sound m e n k d e10 :
  candidate m e n k = Some (d, e10) ->
  round_decimal false d e10 = S754_finite false m e.
Proof.
  assert (forall r, denotes m e r = true -> Some r = Some (d, e10) ->
                    round_decimal false d e10 = S754_finite false m e) as Hok.
  { intros r Hr [= ->]. by apply same_float_eq. }
  unfold candidate. cbv zeta.
  repeat match goal with
         | |- context [denotes m e ?r] =>
             let H := fresh "H" in destruct (denotes m e r) eqn:H
         end;
    [|by apply Hok..|done].
  destruct (_ ?= _)%Z; [|by apply Hok..].
  destruct (Z.even _); by apply Hok.
Qed.

Lemma shortest_from_sound m e n d e10 fuel : forall k,
  shortest_from m e fuel n k = Some (d, e10) ->
  round_decimal false d e10 = S754_finite false m e.
Proof.
  induction fuel as [|fuel IH]; intros k; simpl; [done|].
  destruct (candidate m e n k) as [r|] eqn:Hc; [|apply IH].
  intros [= ->]. by eapply candidate_sound.
Qed.

Lemma shortest_sound m e d e10 :
  shortest m e = Some (d, e10) -> round_decimal false d e10 = S754_finite false m e.
Proof. apply shortest_from_sound. Qed.

Lemma round_decimal_zero negative e : round_decimal negative 0 e = S754_zero negative.
Proof. by destruct negative. Qed.

Lemma round_decimal_negative m e :
  round_decimal true m e = SFopp (round_decimal false m e).
Proof. reflexivity. Qed.

Lemma layout_head c tl n :
  digits (c :: tl) -> exists h t, layout (c :: tl) n = h :: t /\ is_digit h = true.
Proof.
  intros Hds. inversion Hds as [|? ? Hc _]; subst. unfold layout.
  destruct ((Z.of_nat (length (c :: tl)) <=? n)%Z && (n <=? 21)%Z); [by eexists _, _|].
  destruct ((0 <? n)%Z && (n <=? 21)%Z) eqn:Hn.
  { apply andb_true_iff in Hn as [Hn _]. apply Z.ltb_lt in Hn.
    destruct (Z.to_nat n) eqn:Hj; [lia|]. by eexists _, _. }
  destruct ((-6 <? n)%Z && (n <=? 0)%Z); [by eexists _, _|].
  destruct tl; eexists _, _; (split; [reflexivity | exact Hc]).
Qed.

Lemma read_number_digit c l :
  is_digit c = true -> read_number (c :: l) = read_unsigned false (c :: l).
Proof.
  intros Hc. unfold read_number. destruct (N.eqb_spec c 45) as [->|]; done.
Qed.

(** Reading what [Number::toString] wrote for a printable number gives
    the number. *)
Lemma read_number_printed x rest :
  printable x = true -> delimited rest ->
  read_number (Number_toString x ++ rest) = Parsed (x, rest).
Proof.
  intros Hx Hrest. destruct x as [[]| | |s m e]; try done.
  - change (Number_toString (S754_zero false) ++ rest) with (48 :: rest).
    rewrite read_number_digit by done. change (48 :: rest) with ([48] ++ rest).
    rewrite (read_unsigned_parts false [48] rest [] rest 0%Z rest);
      [done | | done | by apply read_fraction_none | by apply read_exponent_none].
    apply (read_digits_app [48]); [by repeat constructor | by apply delimited_stop].
  - simpl in Hx. unfold Number_toString.
    assert (exists d e10,
      match shortest m e with Some r => r | None => exact m e end = (d, e10)
      /\ round_decimal false d e10 = S754_finite false m e) as (d & e10 & -> & Hs).
    { destruct (shortest m e) as [[d e10]|] eqn:Hs.
      - exists d, e10. split; [done | by apply shortest_sound].
      - pose proof (exact_sound m e Hx) as He. destruct (exact m e) as [d e10].
        by exists d, e10. }
    destruct (N.eq_dec d 0) as [->|Hd]; [by rewrite round_decimal_zero in Hs|].
    destruct (decimal_head d) as (c & tl & Hdec & Hc); [lia|].
    pose proof (digits_decimal d) as Hds. pose proof (digits_value_decimal d) as Hv.
    rewrite Hdec in *.
    assert (forall negative,
      read_unsigned negative
        (layout (c :: tl) (Z.of_nat (length (c :: tl)) + e10) ++ rest)
      = Parsed (round_decimal negative d e10, rest)) as Hread.
    { intros negative. rewrite read_unsigned_layout, Hv by done.
      by replace (Z.of_nat (length (c :: tl)) + e10 - Z.of_nat (length (c :: tl)))%Z
        with e10 by lia. }
    destruct s.
    + change (([45] ++ ?l) ++ rest) with (45 :: l ++ rest).
      change (read_number (45 :: ?l)) with (read_unsigned true l).
      by rewrite Hread, round_decimal_negative, Hs.
    + change (([] ++ ?l) ++ rest) with (l ++ rest).
      destruct (layout_head c tl (Z.of_nat (length (c :: tl)) + e10) Hds)
        as (h & t & Hl & Hh).
      rewrite <- Hs, <- (Hread false), Hl. by apply read_number_digit.
Qed.

(** *** String literals *)

Lemma hex_value_hex_char n : n < 16 -> hex_value (hex_char n) = Some n.
Proof.
  intros Hn. destruct n as [|p]; [done|].
  do 4 (destruct p as [p|p|]; try done); lia.
Qed.

Lemma hex4_unicode_escape c :
  c < 65536 ->
  hex4 (hex_char (c / 4096)) (hex_char (c / 256 mod 16)) (hex_char (c / 16 mod 16))
    (hex_char (c mod 16)) = Some c.
Proof.
  intros Hc. unfold hex4.
  rewrite !hex_value_hex_char
    by (try (apply N.mod_lt; done); apply N.Div0.div_lt_upper_bound; lia).
  f_equal. zify. Z.to_euclidean_division_equations. lia.
Qed.

Lemma read_string_unicode c tail :
  c < 65536 -> read_string (unicode_escape c ++ tail) = prepend c (read_string tail).
Proof.
  intros Hc.
  change (read_string (unicode_escape c ++ tail)) with
    (match hex4 (hex_char (c / 4096)) (hex_char (c / 256 mod 16))
             (hex_char (c / 16 mod 16)) (hex_char (c mod 16)) with
     | Some code => prepend code (read_string tail)
     | None => SyntaxError
     end).
  by rewrite hex4_unicode_escape.
Qed.

Lemma read_string_literal c l :
  c <> 34 -> c <> 92 -> 32 <= c -> read_string (c :: l) = prepend c (read_string l).
Proof.
  intros H34 H92 H32. cbn [read_string].
  destruct (N.eqb_spec c 34); [done|]. destruct (N.eqb_spec c 92); [done|].
  destruct (N.ltb_spec c 32); [lia | done].
Qed.

Lemma read_string_escape c tail :
  c < 65536 -> read_string (escape c ++ tail) = prepend c (read_string tail).
Proof.
  intros Hc. unfold escape.
  repeat match goal with
         | |- context [N.eqb c ?k] => destruct (N.eqb_spec c k) as [->|]; [reflexivity|]
         end.
  destruct (N.ltb_spec c 32); [by apply read_string_unicode|].
  by apply read_string_literal.
Qed.

Lemma surrogate_literal c l :
  leading_surrogate c || trailing_surrogate c = true ->
  read_string (c :: l) = prepend c (read_string l).
Proof.
  unfold leading_surrogate, trailing_surrogate.
  intros [[H1 H2]%andb_true_iff | [H1 H2]%andb_true_iff]%orb_true_iff;
    apply N.leb_le in H1, H2; apply read_string_literal; lia.
Qed.

Lemma read_string_quote_units rest (n : nat) : forall cs,
  (length cs <= n)%nat -> forallb code_unit cs = true ->
  read_string (quote_units cs ++ 34 :: rest) = Parsed (cs, rest).
Proof.
  induction n as [|n IH]; intros [|c cs] Hn Hcs; try done; [simpl in Hn; lia|].
  simpl in Hn, Hcs. apply andb_true_iff in Hcs as [Hc Hcs].
  unfold code_unit in Hc. apply N.ltb_lt in Hc.
  cbn [quote_units].
  destruct (leading_surrogate c) eqn:Hlead.
  - destruct cs as [|d cs].
    + rewrite read_string_unicode by done. reflexivity.
    + destruct (trailing_surrogate d) eqn:Htrail.
      * cbn [app]. rewrite (surrogate_literal c) by (by rewrite Hlead).
        rewrite (surrogate_literal d) by (by rewrite Htrail, orb_true_r).
        simpl in Hn, Hcs. apply andb_true_iff in Hcs as [_ Hcs].
        by rewrite IH by (done || lia).
      * rewrite <- app_assoc, read_string_unicode by done.
        by rewrite IH by (done || lia).
  - destruct (trailing_surrogate c) eqn:Htrail.
    + rewrite <- app_assoc, read_string_unicode by done.
      by rewrite IH by (done || lia).
    + rewrite <- app_assoc, read_string_escape by done.
      by rewrite IH by (done || lia).
Qed.

Lemma read_string_quote cs rest :
  forallb code_unit cs = true ->
  read_string (quote_units cs ++ 34 :: rest) = Parsed (cs, rest).
Proof. by apply (read_string_quote_units rest (length cs)). Qed.

(** *** Values *)

(** Induction on a value, with the property at hand for every element of
    an array and every member of an object. *)
Lemma value_induction (P : value -> Prop) :
  P JNull -> (forall b, P (JBool b)) -> (forall x, P (JNumber x)) ->
  (forall s, P (JString s)) ->
  (forall l, Forall P l -> P (JArray l)) ->
  (forall ms, Forall (fun m => P (snd m)) ms -> P (JObject ms)) ->
  forall v, P v.
Proof.
  intros Hnull Hbool Hnumber Hstring Harray Hobject.
  fix IH 1.
  intros [|b|x|s|l|ms];
    [exact Hnull | apply Hbool | apply Hnumber | apply Hstring | | ].
  - apply Harray. induction l as [|x l IHl]; constructor; [apply IH | exact IHl].
  - apply Hobject. induction ms as [|m ms IHms]; constructor; [apply IH | exact IHms].
Qed.

Lemma digit_cases c :
  is_digit c = true ->
  c = 48 \/ c = 49 \/ c = 50 \/ c = 51 \/ c = 52 \/ c = 53 \/ c = 54 \/ c = 55
  \/ c = 56 \/ c = 57.
Proof.
  unfold is_digit. intros [H1 H2]%andb_true_iff. apply N.leb_le in H1, H2. lia.
Qed.

Ltac each_digit H :=
  apply digit_cases in H;
  destruct H as [->|[->|[->|[->|[->|[->|[->|[->|[->| ->]]]]]]]]].

Lemma starter_digit c : is_digit c = true -> starter c = true.
Proof. intros H. each_digit H; reflexivity. Qed.

Lemma starter_cases c :
  starter c = true ->
  c = 110 \/ c = 116 \/ c = 102 \/ c = 34 \/ c = 91 \/ c = 123 \/ number_start c.
Proof.
  unfold starter. cbn [existsb]. intros H.
  repeat (apply orb_prop in H; destruct H as [H|H];
          [apply N.eqb_eq in H; subst c; unfold number_start; naive_solver|]).
  discriminate.
Qed.

Lemma number_text_starter x rest :
  exists c tail,
    serialize (JNumber x) ++ rest = c :: tail /\ starter c = true
    /\ (finite x = true -> number_start c).
Proof.
  destruct x as [s|s| |s m e]; try (by eexists _, _).
  - eexists _, _. split; [reflexivity|]. split; [done|]. by left.
  - cbn [serialize finite Number_toString].
    destruct (match shortest m e with Some r => r | None => exact m e end) as [d e10].
    destruct s.
    + eexists _, _. split; [reflexivity|]. split; [done|]. by right.
    + destruct (decimal d) as [|c tl] eqn:Hd; [by apply decimal_nonempty in Hd|].
      pose proof (digits_decimal d) as Hds. rewrite Hd in Hds.
      destruct (layout_head c tl (Z.of_nat (length (c :: tl)) + e10) Hds)
        as (h & t & Hl & Hh).
      rewrite Hl. eexists _, _. split; [reflexivity|].
      split; [by apply starter_digit | by left].
Qed.

Lemma serialize_starter v rest :
  exists c tail, serialize v ++ rest = c :: tail /\ starter c = true.
Proof.
  destruct v as [|[]|x|s|l|ms]; try (by eexists _, _).
  destruct (number_text_starter x rest) as (c & tail & H & Hc & _). by exists c, tail.
Qed.

Section descent.
Variable make_object : list (text * value) -> value.

Lemma starter_not_closing {A} (c : N) tail (X : text -> A) (Y : A) :
  starter c = true ->
  match skip_ws (c :: tail) with
  | 93 :: rest => X rest
  | _ => Y
  end = Y.
Proof.
  intros [->|[->|[->|[->|[->|[->|[H| ->]]]]]]]%starter_cases; try reflexivity.
  each_digit H; reflexivity.
Qed.

Lemma parse_value_number fuel (c : N) tail :
  number_start c ->
  parse_value make_object (S fuel) (c :: tail) =
    and_then (read_number (c :: tail)) (fun '(x, rest) => Parsed (JNumber x, rest)).
Proof. intros [H| ->]; [each_digit H|]; reflexivity. Qed.

Lemma parse_value_array fuel r :
  parse_value make_object (S fuel) (91 :: r) =
    match skip_ws r with
    | 93 :: rest => Parsed (JArray [], rest)
    | _ => and_then (parse_elements make_object fuel r)
             (fun '(vs, rest) => Parsed (JArray vs, rest))
    end.
Proof. reflexivity. Qed.

Lemma parse_value_object fuel r :
  parse_value make_object (S fuel) (123 :: r) =
    match skip_ws r with
    | 125 :: rest => Parsed (JObject [], rest)
    | _ => and_then (parse_members make_object fuel r)
             (fun '(ms, rest) => Parsed (make_object ms, rest))
    end.
Proof. reflexivity. Qed.

Lemma parse_elements_step fuel l :
  parse_elements make_object (S fuel) l =
    and_then (parse_value make_object fuel l) (fun '(v, r) =>
      match skip_ws r with
      | 44 :: r' =>
          and_then (parse_elements make_object fuel r')
            (fun '(vs, rest) => Parsed (v :: vs, rest))
      | 93 :: rest => Parsed ([v], rest)
      | _ => SyntaxError
      end).
Proof. reflexivity. Qed.

Lemma parse_members_step fuel tail :
  parse_members make_object (S fuel) (34 :: tail) =
    and_then (read_string tail) (fun '(k, r1) =>
      match skip_ws r1 with
      | 58 :: r2 =>
          and_then (parse_value make_object fuel r2) (fun '(v, r3) =>
            match skip_ws r3 with
            | 44 :: r4 =>
                and_then (parse_members make_object fuel r4)
                  (fun '(ms, rest) => Parsed ((k, v) :: ms, rest))
            | 125 :: rest => Parsed ([(k, v)], rest)
            | _ => SyntaxError
            end)
      | _ => SyntaxError
      end).
Proof. reflexivity. Qed.

Lemma separated_cons (x y : text) l :
  separated (x :: y :: l) = x ++ 44 :: separated (y :: l).
Proof. reflexivity. Qed.

Lemma elements_round_trip l :
  Forall (round_trips make_object) l -> forall v, round_trips make_object v ->
  forallb representable (v :: l) = true ->
  fold_right (fun x P => kept make_object x /\ P) True (v :: l) ->
  forall (fuel : nat) (rest : text),
    (2 * length (separated (map serialize (v :: l))) + 2 <= fuel)%nat ->
    parse_elements make_object fuel (separated (map serialize (v :: l)) ++ 93 :: rest)
    = Parsed (v :: l, rest).
Proof.
  induction 1 as [|y l Hy Hl IH]; intros v Hv Hr Hk fuel rest Hfuel;
    simpl in Hr; apply andb_true_iff in Hr as [Hrv Hr]; destruct Hk as [Hkv Hk];
    (destruct fuel as [|fuel]; [lia|]); rewrite parse_elements_step.
  - simpl map in *. simpl separated in *.
    rewrite (Hv Hrv Hkv) by (simpl; auto with lia). reflexivity.
  - simpl map in *. rewrite separated_cons in *. rewrite <- app_assoc.
    rewrite length_app in Hfuel. simpl in Hfuel.
    rewrite (Hv Hrv Hkv) by (simpl; auto with lia). cbn [and_then].
    change (skip_ws ((44 :: separated (serialize y :: map serialize l)) ++ 93 :: rest))
      with (44 :: separated (serialize y :: map serialize l) ++ 93 :: rest).
    cbv iota. rewrite (IH y Hy Hr Hk) by (simpl; lia). reflexivity.
Qed.

Lemma member_text k v more :
  member (k, v) ++ more = 34 :: quote_units k ++ 34 :: 58 :: serialize v ++ more.
Proof. unfold member, quote. simpl. by rewrite <- !app_assoc. Qed.

Lemma member_length k v :
  length (member (k, v)) = (length (quote_units k) + 3 + length (serialize v))%nat.
Proof.
  unfold member, quote. cbn [fst snd]. rewrite length_app. cbn [length].
  rewrite length_app. cbn [length]. lia.
Qed.

Lemma members_round_trip ms :
  Forall (fun m => round_trips make_object (snd m)) ms ->
  forall m, round_trips make_object (snd m) ->
  forallb (fun m => forallb code_unit (fst m)) (m :: ms) = true ->
  forallb (fun m => representable (snd m)) (m :: ms) = true ->
  fold_right (fun m P => kept make_object (snd m) /\ P) True (m :: ms) ->
  forall (fuel : nat) (rest : text),
    (2 * length (separated (map member (m :: ms))) + 2 <= fuel)%nat ->
    parse_members make_object fuel (separated (map member (m :: ms)) ++ 125 :: rest)
    = Parsed (m :: ms, rest).
Proof.
  induction 1 as [|y ms Hy Hms IH]; intros [k v] Hv Hu Hr Hk fuel rest Hfuel;
    simpl in Hr; apply andb_true_iff in Hr as [Hrv Hr];
    simpl in Hu; apply andb_true_iff in Hu as [Huk Hu]; destruct Hk as [Hkv Hk];
    (destruct fuel as [|fuel]; [lia|]); simpl in Hv, Hkv.
  - simpl map in *. simpl separated in *. rewrite member_text, parse_members_step.
    rewrite read_string_quote by done. cbn [and_then].
    change (skip_ws (58 :: ?x)) with (58 :: x). cbv iota.
    rewrite member_length in Hfuel.
    rewrite (Hv Hrv Hkv) by (simpl; auto with lia). reflexivity.
  - simpl map in *. rewrite separated_cons in *. rewrite <- app_assoc.
    rewrite member_text, parse_members_step.
    rewrite read_string_quote by done. cbn [and_then].
    change (skip_ws (58 :: ?x)) with (58 :: x). cbv iota.
    rewrite length_app, member_length in Hfuel. cbn [length] in Hfuel.
    rewrite (Hv Hrv Hkv) by (simpl; auto with lia). cbn [and_then].
    change (skip_ws ((44 :: separated (member y :: map member ms)) ++ 125 :: rest))
      with (44 :: separated (member y :: map member ms) ++ 125 :: rest).
    cbv iota. rewrite (IH y Hy Hu Hr Hk) by (simpl map; lia). reflexivity.
Qed.

Lemma separated_starter v l more :
  exists c tail,
    separated (map serialize (v :: l)) ++ more = c :: tail /\ starter c = true.
Proof.
  destruct l as [|y l]; simpl map.
  - apply serialize_starter.
  - rewrite separated_cons, <- app_assoc. apply serialize_starter.
Qed.

Lemma members_starter m ms more :
  exists tail, separated (map member (m :: ms)) ++ more = 34 :: tail.
Proof.
  destruct m as [k v]. destruct ms as [|y ms]; simpl map.
  - simpl separated. rewrite member_text. eauto.
  - rewrite separated_cons, <- app_assoc, member_text. eauto.
Qed.

Lemma array_text l rest :
  serialize (JArray l) ++ rest = 91 :: separated (map serialize l) ++ 93 :: rest.
Proof.
  change (serialize (JArray l)) with (91 :: separated (map serialize l) ++ [93]).
  cbn [app]. by rewrite <- app_assoc.
Qed.

Lemma object_text ms rest :
  serialize (JObject ms) ++ rest = 123 :: separated (map member ms) ++ 125 :: rest.
Proof.
  change (serialize (JObject ms)) with (123 :: separated (map member ms) ++ [125]).
  cbn [app]. by rewrite <- app_assoc.
Qed.

Lemma array_length l :
  length (serialize (JArray l)) = (length (separated (map serialize l)) + 2)%nat.
Proof.
  change (serialize (JArray l)) with (91 :: separated (map serialize l) ++ [93]).
  cbn [length]. rewrite length_app. simpl. lia.
Qed.

Lemma object_length ms :
  length (serialize (JObject ms)) = (length (separated (map member ms)) + 2)%nat.
Proof.
  change (serialize (JObject ms)) with (123 :: separated (map member ms) ++ [125]).
  cbn [length]. rewrite length_app. simpl. lia.
Qed.

Theorem serialize_round_trips (v : value) : round_trips make_object v.
Proof.
  induction v as [|b|x|s|l IH|ms IH] using value_induction;
    intros Hr Hk fuel rest Hfuel Hrest; (destruct fuel as [|fuel]; [lia|]).
  - reflexivity.
  - by destruct b.
  - simpl in Hr.
    assert (finite x = true) as Hfin by (by destruct x as [[]| | |]).
    destruct (number_text_starter x rest) as (c & tail & Heq & _ & Hc).
    rewrite Heq, (parse_value_number _ _ _ (Hc Hfin)), <- Heq.
    cbn [serialize]. rewrite Hfin. by rewrite read_number_printed.
  - change (serialize (JString s) ++ rest) with (34 :: (quote_units s ++ [34]) ++ rest).
    rewrite <- app_assoc.
    change (parse_value make_object (S fuel) (34 :: ?tail))
      with (and_then (read_string tail) (fun '(s, rest) => Parsed (JString s, rest))).
    cbn [app]. by rewrite read_string_quote.
  - destruct l as [|v l]; [reflexivity|].
    rewrite array_text, parse_value_array. rewrite array_length in Hfuel.
    destruct (separated_starter v l (93 :: rest)) as (c & tail & Heq & Hc).
    rewrite Heq, (starter_not_closing _ _ _ _ Hc), <- Heq.
    apply Forall_cons in IH as [Hv Hl].
    by rewrite (elements_round_trip l Hl v Hv Hr Hk) by lia.
  - destruct ms as [|m ms]; [reflexivity|].
    rewrite object_text, parse_value_object. rewrite object_length in Hfuel.
    destruct (members_starter m ms (125 :: rest)) as (tail & Heq).
    rewrite Heq.
    change (skip_ws (34 :: tail)) with (34 :: tail).
    cbv iota. rewrite <- Heq.
    apply Forall_cons in IH as [Hv Hl].
    cbn [representable] in Hr.
    apply andb_true_iff in Hr as [[Hu Hd]%andb_true_iff Hr].
    destruct Hk as [Hmake Hk].
    rewrite (members_round_trip ms Hl m Hv Hu Hr Hk) by lia.
    cbn [and_then]. by rewrite Hmake.
Qed.

(** Parsing the whole text that [stringify] wrote. *)
Lemma parse_text_stringify (v : value) :
  representable v = true -> kept make_object v ->
  parse_text make_object (stringify v) = Parsed v.
Proof.
  intros Hr Hk. unfold parse_text, stringify.
  rewrite <- (app_nil_r (serialize v)) at 2.
  by rewrite (serialize_round_trips v Hr Hk) by (simpl; auto with lia).
Qed.

End descent.

(** *** The own properties of the object that [JSON.parse] makes *)

Lemma not_among_keys (ms : list (text * value)) (k : text) :
  existsb (text_eqb k) (map fst ms) = false ->
  existsb (fun m => text_eqb (fst m) k) ms = false.
Proof.
  induction ms as [|m ms IH]; simpl; [done|].
  intros [Hk Hms]%orb_false_elim. rewrite (IH Hms), orb_false_r.
  destruct (text_eqb (fst m) k) eqn:H; [|done].
  apply text_eqb_eq in H. rewrite H, text_eqb_refl in Hk. done.
Qed.

Lemma distinct_middle (l1 l2 : list text) (k : text) :
  distinct (l1 ++ k :: l2) = true -> existsb (text_eqb k) l1 = false.
Proof.
  induction l1 as [|k0 l1 IH]; simpl; [done|].
  intros [Hk0 Hd]%andb_true_iff. rewrite (IH Hd), orb_false_r.
  apply negb_true_iff in Hk0. rewrite existsb_app in Hk0. simpl in Hk0.
  apply orb_false_elim in Hk0 as [_ Hk0]. apply orb_false_elim in Hk0 as [Hk0 _].
  destruct (text_eqb k k0) eqn:H; [|done].
  apply text_eqb_eq in H. rewrite H, text_eqb_refl in Hk0. done.
Qed.

(** In the order of enumeration, the keys before an array index are
    smaller array indices. *)
Lemma own_keys_order_before (l1 l2 : list text) (k : text) (i : N) :
  own_keys_order (l1 ++ k :: l2) = true -> array_index k = Some i ->
  Forall (fun k' => exists j, array_index k' = Some j /\ j < i) l1.
Proof.
  intros Ho Hk. induction l1 as [|k0 l1 IH]; [constructor|].
  simpl in Ho. apply andb_true_iff in Ho as [H0 Ho].
  constructor; [|by apply IH].
  destruct (array_index k0) as [j|]; rewrite forallb_app in H0;
    apply andb_true_iff in H0 as [_ H0]; simpl in H0; rewrite Hk in H0;
    apply andb_true_iff in H0 as [H0 _]; [|done].
  exists j. split; [done | by apply N.ltb_lt].
Qed.

Lemma place_index_last (ms : list (text * value)) (i : N) (k : text) (v : value) :
  Forall (fun k' => exists j, array_index k' = Some j /\ j < i) (map fst ms) ->
  place_index i k v ms = ms ++ [(k, v)].
Proof.
  induction ms as [|m ms IH]; simpl; [done|].
  intros [(j & -> & Hj) Hms]%Forall_cons.
  destruct (N.ltb_spec j i); [|lia]. by rewrite IH.
Qed.

Lemma define_property_last (ms : list (text * value)) (k : text) (v : value) more :
  distinct (map fst ms ++ k :: more) = true ->
  own_keys_order (map fst ms ++ k :: more) = true ->
  define_property ms k v = ms ++ [(k, v)].
Proof.
  intros Hd Ho. unfold define_property.
  rewrite not_among_keys by (by eapply distinct_middle).
  destruct (array_index k) as [i|] eqn:Hk; [|done].
  apply place_index_last. by eapply own_keys_order_before.
Qed.

Lemma define_members ms : forall acc,
  distinct (map fst (acc ++ ms)) = true ->
  own_keys_order (map fst (acc ++ ms)) = true ->
  fold_left (fun acc m => define_property acc (fst m) (snd m)) ms acc = acc ++ ms.
Proof.
  induction ms as [|[k v] ms IH]; intros acc Hd Ho; simpl.
  - by rewrite app_nil_r.
  - rewrite map_app in Hd, Ho. simpl in Hd, Ho.
    rewrite (define_property_last acc k v (map fst ms) Hd Ho).
    rewrite IH; rewrite <- app_assoc; [done|..]; by rewrite map_app.
Qed.

(** Defining, one after the other, the own properties of an object, in
    the order in which the object enumerates them, gives the object. *)
Lemma object_of_own_properties ms :
  distinct (map fst ms) = true -> own_keys_order (map fst ms) = true ->
  object_of ms = JObject ms.
Proof. intros Hd Ho. unfold object_of. by rewrite (define_members ms []). Qed.

Lemma kept_object_of (v : value) :
  representable v = true -> enumerated v = true -> kept object_of v.
Proof.
  induction v as [|b|x|s|l IH|ms IH] using value_induction; try done.
  - cbn [representable enumerated kept]. intros Hr He.
    induction IH as [|y l Hy _ IHl]; [done|].
    simpl in Hr, He. apply andb_true_iff in Hr as [? ?], He as [? ?].
    split; [by apply Hy | by apply IHl].
  - cbn [representable enumerated kept].
    intros [[_ Hd]%andb_true_iff Hr]%andb_true_iff [Ho He]%andb_true_iff.
    split; [by apply object_of_own_properties|].
    clear Hd Ho. induction IH as [|y l Hy _ IHl]; [done|].
    simpl in Hr, He. apply andb_true_iff in Hr as [? ?], He as [? ?].
    split; [by apply Hy | by apply IHl].
Qed.

Lemma kept_members (v : value) : kept JObject v.
Proof.
  induction v as [|b|x|s|l IH|ms IH] using value_induction; try done.
  - cbn [kept]. induction IH; [done | by split].
  - cbn [kept]. split; [done|]. induction IH; [done | by split].
Qed.

(** [JSON.parse] undoes [JSON.stringify] on every representable value
    whose objects have their members in the order of enumeration. *)
Theorem parse_stringify (v : value) :
  representable v = true -> enumerated v = true -> parse (stringify v) = Parsed v.
Proof.
  intros Hr He. apply parse_text_stringify; [done | by apply kept_object_of].
Qed.


(** *** The descent ends *)

Lemma skip_ws_length l : (length (skip_ws l) <= length l)%nat.
Proof. induction l as [|c l IH]; simpl; [done|]. destruct (is_ws c); simpl; lia. Qed.

Lemma read_digits_length l ds rest :
  read_digits l = (ds, rest) -> length l = (length ds + length rest)%nat.
Proof.
  revert ds rest. induction l as [|c l IH]; intros ds rest; simpl.
  - by intros [= <- <-].
  - destruct (is_digit c); [|by intros [= <- <-]].
    destruct (read_digits l) as [ds' rest']. intros [= <- <-]. simpl.
    by rewrite (IH ds' rest').
Qed.

Lemma prepend_length {A} c (r : result (text * A)) s rest :
  prepend c r = Parsed (s, rest) -> exists s', r = Parsed (s', rest).
Proof. destruct r as [[s' rest']| |]; simpl; [|done..]. intros [= _ <-]. eauto. Qed.

Lemma read_string_length (n : nat) : forall l s rest,
  (length l <= n)%nat -> read_string l = Parsed (s, rest) -> (length rest < length l)%nat.
Proof.
  induction n as [|n IH]; intros [|c l] s rest Hn; simpl in *; try done; [lia|].
  destruct (c =? 34); [intros [= _ <-]; lia|].
  destruct (c =? 92).
  - destruct l as [|e l]; [done|]. destruct (unescape e).
    + intros (s' & H)%prepend_length. apply IH in H; simpl in *; lia.
    + destruct (e =? 117); [|done].
      destruct l as [|h1 [|h2 [|h3 [|h4 l]]]]; try done.
      destruct (hex4 h1 h2 h3 h4); [|done].
      intros (s' & H)%prepend_length. apply IH in H; simpl in *; lia.
  - destruct (c <? 32); [done|].
    intros (s' & H)%prepend_length. apply IH in H; simpl in *; lia.
Qed.

Lemma read_fraction_length l fp rest :
  read_fraction l = Some (fp, rest) -> (length rest <= length l)%nat.
Proof.
  unfold read_fraction.
  assert (Some ([], l) = Some (fp, rest) -> (length rest <= length l)%nat) as Hsame
    by (by intros [= <- <-]).
  destruct l as [|c r]; [done|].
  destruct (N.eq_dec c 46) as [->|Hp].
  - destruct (read_digits r) as [ds rest'] eqn:Hr. apply read_digits_length in Hr.
    destruct ds; [done|]. intros [= <- <-]. simpl in *. lia.
  - intros H. apply Hsame. rewrite <- H.
    destruct c as [|p]; [done|]. do 6 (destruct p as [p|p|]; try done).
Qed.

Lemma read_exponent_length l ex rest :
  read_exponent l = Some (ex, rest) -> (length rest <= length l)%nat.
Proof.
  unfold read_exponent. destruct l as [|c r]; [by intros [= <- <-]|].
  destruct ((c =? 101) || (c =? 69)); [|by intros [= <- <-]].
  assert (exists r1 negative,
    match r with
    | 43 :: r' => (false, r')
    | 45 :: r' => (true, r')
    | _ => (false, r)
    end = (negative, r1) /\ (length r1 <= length r)%nat) as (r1 & negative & -> & Hr1).
  { destruct r as [|d r']; [by eexists _, _|].
    destruct (N.eq_dec d 43) as [->|]; [eexists _, _; split; [done | simpl; lia]|].
    destruct (N.eq_dec d 45) as [->|]; [eexists _, _; split; [done | simpl; lia]|].
    exists (d :: r'), false. split; [|done].
    destruct d as [|p]; [done|]. do 6 (destruct p as [p|p|]; try done). }
  destruct (read_digits r1) as [ds rest'] eqn:Hr. apply read_digits_length in Hr.
  destruct ds; [done|]. intros [= _ <-]. simpl in *. lia.
Qed.

Lemma read_unsigned_length negative l x rest :
  read_unsigned negative l = Parsed (x, rest) -> (length rest < length l)%nat.
Proof.
  unfold read_unsigned. destruct (read_digits l) as [ip l2] eqn:Hip.
  apply read_digits_length in Hip.
  destruct (integer_part ip) eqn:Hint; [|done].
  destruct (read_fraction l2) as [[fp l3]|] eqn:Hf; [|done].
  destruct (read_exponent l3) as [[ex l4]|] eqn:He; [|done].
  intros [= _ <-]. apply read_fraction_length in Hf. apply read_exponent_length in He.
  destruct ip; [done|]. simpl in *. lia.
Qed.

Lemma read_number_length l x rest :
  read_number l = Parsed (x, rest) -> (length rest < length l)%nat.
Proof.
  unfold read_number. destruct l as [|c r]; [done|].
  destruct (c =? 45); intros H%read_unsigned_length; simpl in *; lia.
Qed.

Lemma starts_with_length w l : starts_with w l = true -> (length w <= length l)%nat.
Proof.
  revert l. induction w as [|c w IH]; intros [|d l]; simpl; try done; [lia|].
  intros [_ H]%andb_true_iff. apply IH in H. lia.
Qed.

Lemma expect_length word v l v' rest :
  (0 < String.length word)%nat ->
  expect word v l = Parsed (v', rest) -> (length rest < length l)%nat.
Proof.
  intros Hw. unfold expect. destruct (starts_with _ l) eqn:Hs; [|done].
  intros [= _ <-]. apply starts_with_length in Hs. rewrite length_drop.
  assert (0 < length (code_units word))%nat; [|lia].
  unfold code_units. rewrite length_map. destruct word; simpl in *; lia.
Qed.

Section fuel.
Variable make_object : list (text * value) -> value.

(** What the descent leaves is shorter than what it was given. *)
Lemma descent_consumes (fuel : nat) :
  (forall l v rest,
      parse_value make_object fuel l = Parsed (v, rest) -> (length rest < length l)%nat)
  /\ (forall l vs rest,
      parse_elements make_object fuel l = Parsed (vs, rest) ->
      (length rest < length l)%nat)
  /\ (forall l ms rest,
      parse_members make_object fuel l = Parsed (ms, rest) ->
      (length rest < length l)%nat).
Proof.
  induction fuel as [|fuel (IHv & IHe & IHm)]; [done|]. split; [|split].
  - intros l v rest. cbn [parse_value]. pose proof (skip_ws_length l) as Hl.
    destruct (skip_ws l) as [|c r]; [done|].
    destruct (c =? 110); [intros H%expect_length; simpl in *; lia|].
    destruct (c =? 116); [intros H%expect_length; simpl in *; lia|].
    destruct (c =? 102); [intros H%expect_length; simpl in *; lia|].
    destruct (c =? 34).
    { destruct (read_string r) as [[s r']| |] eqn:Hs; [|done..].
      apply (read_string_length _ _ _ _ (Nat.le_refl _)) in Hs.
      intros [= _ <-]. simpl in *. lia. }
    destruct (c =? 91).
    { pose proof (skip_ws_length r) as Hr.
      assert (and_then (parse_elements make_object fuel r)
                (fun '(vs, rest) => Parsed (JArray vs, rest)) = Parsed (v, rest) ->
              (length rest < length l)%nat) as Helems.
      { destruct (parse_elements make_object fuel r) as [[vs r']| |] eqn:He; [|done..].
        apply IHe in He. intros [= _ <-]. simpl in *. lia. }
      destruct (skip_ws r) as [|d r']; [exact Helems|].
      destruct (N.eq_dec d 93) as [->|]; [intros [= _ <-]; simpl in *; lia|].
      intros H. apply Helems. rewrite <- H.
      destruct d as [|p]; [done|]. do 7 (destruct p as [p|p|]; try done). }
    destruct (c =? 123).
    { pose proof (skip_ws_length r) as Hr.
      assert (and_then (parse_members make_object fuel r)
                (fun '(ms, rest) => Parsed (make_object ms, rest)) = Parsed (v, rest) ->
              (length rest < length l)%nat) as Hmems.
      { destruct (parse_members make_object fuel r) as [[ms r']| |] eqn:He; [|done..].
        apply IHm in He. intros [= _ <-]. simpl in *. lia. }
      destruct (skip_ws r) as [|d r']; [exact Hmems|].
      destruct (N.eq_dec d 125) as [->|]; [intros [= _ <-]; simpl in *; lia|].
      intros H. apply Hmems. rewrite <- H.
      destruct d as [|p]; [done|]. do 7 (destruct p as [p|p|]; try done). }
    destruct (read_number (c :: r)) as [[x r']| |] eqn:Hn; [|done..].
    apply read_number_length in Hn. intros [= _ <-]. simpl in *. lia.
  - intros l vs rest. cbn [parse_elements].
    destruct (parse_value make_object fuel l) as [[v r]| |] eqn:Hv; [|done..].
    apply IHv in Hv. cbn [and_then]. pose proof (skip_ws_length r) as Hr.
    destruct (skip_ws r) as [|d r']; [done|].
    destruct (N.eq_dec d 44) as [->|].
    { destruct (parse_elements make_object fuel r') as [[vs' r'']| |] eqn:He; [|done..].
      apply IHe in He. intros [= _ <-]. simpl in *. lia. }
    destruct (N.eq_dec d 93) as [->|]; [intros [= _ <-]; simpl in *; lia|].
    destruct d as [|p]; [done|]. do 7 (destruct p as [p|p|]; try done).
  - intros l ms rest. cbn [parse_members]. pose proof (skip_ws_length l) as Hl.
    destruct (skip_ws l) as [|c r]; [done|].
    destruct (c =? 34); [|done].
    destruct (read_string r) as [[k r1]| |] eqn:Hs; [|done..].
    apply (read_string_length _ _ _ _ (Nat.le_refl _)) in Hs. cbn [and_then].
    pose proof (skip_ws_length r1) as Hr1.
    destruct (skip_ws r1) as [|d r2]; [done|].
    destruct (N.eq_dec d 58) as [->|];
      [|destruct d as [|p]; [done|]; do 6 (destruct p as [p|p|]; try done)].
    destruct (parse_value make_object fuel r2) as [[v r3]| |] eqn:Hv; [|done..].
    apply IHv in Hv. cbn [and_then]. pose proof (skip_ws_length r3) as Hr3.
    destruct (skip_ws r3) as [|d r4]; [done|].
    destruct (N.eq_dec d 44) as [->|].
    { destruct (parse_members make_object fuel r4) as [[ms' r5]| |] eqn:He; [|done..].
      apply IHm in He. intros [= _ <-]. simpl in *. lia. }
    destruct (N.eq_dec d 125) as [->|]; [intros [= _ <-]; simpl in *; lia|].
    destruct d as [|p]; [done|]. do 7 (destruct p as [p|p|]; try done).
Qed.

Lemma read_string_ends (n : nat) : forall l,
  (length l <= n)%nat -> read_string l <> OutOfFuel.
Proof.
  assert (forall c (r : result (text * text)), r <> OutOfFuel -> prepend c r <> OutOfFuel)
    as Hprepend by (by intros c [[? ?]| |]).
  induction n as [|n IH]; intros [|c l] Hn; simpl in *; try done; [lia|].
  destruct (c =? 34); [done|]. destruct (c =? 92).
  - destruct l as [|e l]; [done|]. destruct (unescape e).
    + apply Hprepend, IH. simpl in *. lia.
    + destruct (e =? 117); [|done].
      destruct l as [|h1 [|h2 [|h3 [|h4 l]]]]; try done.
      destruct (hex4 h1 h2 h3 h4); [|done]. apply Hprepend, IH. simpl in *. lia.
  - destruct (c <? 32); [done|]. apply Hprepend, IH. lia.
Qed.

Lemma read_number_ends l : read_number l <> OutOfFuel.
Proof.
  assert (forall negative l', read_unsigned negative l' <> OutOfFuel) as Hu.
  { intros negative l'. unfold read_unsigned. destruct (read_digits l') as [ip l2].
    destruct (integer_part ip); [|done].
    destruct (read_fraction l2) as [[fp l3]|]; [|done].
    by destruct (read_exponent l3) as [[ex l4]|]. }
  unfold read_number. destruct l as [|c r]; [done|]. destruct (c =? 45); apply Hu.
Qed.

Lemma expect_ends word v l : expect word v l <> OutOfFuel.
Proof. unfold expect. by destruct (starts_with _ l). Qed.

(** Twice the length of the text is fuel enough. *)
Lemma descent_ends (fuel : nat) :
  (forall l, (2 * length l < fuel)%nat -> parse_value make_object fuel l <> OutOfFuel)
  /\ (forall l, (2 * length l + 1 < fuel)%nat ->
                parse_elements make_object fuel l <> OutOfFuel)
  /\ (forall l, (2 * length l + 1 < fuel)%nat ->
                parse_members make_object fuel l <> OutOfFuel).
Proof.
  induction fuel as [|fuel (IHv & IHe & IHm)]; [repeat split; intros; lia|].
  pose proof (descent_consumes fuel) as (Cv & Ce & Cm).
  split; [|split].
  - intros l Hfuel. cbn [parse_value]. pose proof (skip_ws_length l) as Hl.
    destruct (skip_ws l) as [|c r]; [done|].
    destruct (c =? 110); [apply expect_ends|].
    destruct (c =? 116); [apply expect_ends|].
    destruct (c =? 102); [apply expect_ends|].
    destruct (c =? 34).
    { pose proof (read_string_ends _ r (Nat.le_refl _)).
      by destruct (read_string r) as [[? ?]| |]. }
    destruct (c =? 91).
    { assert (and_then (parse_elements make_object fuel r)
                (fun '(vs, rest) => Parsed (JArray vs, rest)) <> OutOfFuel) as Helems.
      { pose proof (IHe r ltac:(simpl in *; lia)).
        by destruct (parse_elements make_object fuel r) as [[? ?]| |]. }
      destruct (skip_ws r) as [|d r']; [exact Helems|].
      destruct (N.eq_dec d 93) as [->|]; [done|].
      destruct d as [|p]; [done|]. do 7 (destruct p as [p|p|]; try done). }
    destruct (c =? 123).
    { assert (and_then (parse_members make_object fuel r)
                (fun '(ms, rest) => Parsed (make_object ms, rest)) <> OutOfFuel) as Hmems.
      { pose proof (IHm r ltac:(simpl in *; lia)).
        by destruct (parse_members make_object fuel r) as [[? ?]| |]. }
      destruct (skip_ws r) as [|d r']; [exact Hmems|].
      destruct (N.eq_dec d 125) as [->|]; [done|].
      destruct d as [|p]; [done|]. do 7 (destruct p as [p|p|]; try done). }
    pose proof (read_number_ends (c :: r)).
    by destruct (read_number (c :: r)) as [[? ?]| |].
  - intros l Hfuel. cbn [parse_elements].
    pose proof (IHv l ltac:(lia)) as Hv.
    destruct (parse_value make_object fuel l) as [[v r]| |] eqn:Hp; [|done..].
    apply Cv in Hp. cbn [and_then]. pose proof (skip_ws_length r) as Hr.
    destruct (skip_ws r) as [|d r']; [done|].
    destruct (N.eq_dec d 44) as [->|].
    { pose proof (IHe r' ltac:(simpl in *; lia)).
      by destruct (parse_elements make_object fuel r') as [[? ?]| |]. }
    destruct (N.eq_dec d 93) as [->|]; [done|].
    destruct d as [|p]; [done|]. do 7 (destruct p as [p|p|]; try done).
  - intros l Hfuel. cbn [parse_members]. pose proof (skip_ws_length l) as Hl.
    destruct (skip_ws l) as [|c r]; [done|].
    destruct (c =? 34); [|done].
    pose proof (read_string_ends _ r (Nat.le_refl _)) as Hs.
    destruct (read_string r) as [[k r1]| |] eqn:Hk; [|done..].
    apply (read_string_length _ _ _ _ (Nat.le_refl _)) in Hk. cbn [and_then].
    pose proof (skip_ws_length r1) as Hr1.
    destruct (skip_ws r1) as [|d r2]; [done|].
    destruct (N.eq_dec d 58) as [->|];
      [|destruct d as [|p]; [done|]; do 6 (destruct p as [p|p|]; try done)].
    pose proof (IHv r2 ltac:(simpl in *; lia)) as Hv.
    destruct (parse_value make_object fuel r2) as [[v r3]| |] eqn:Hp; [|done..].
    apply Cv in Hp. cbn [and_then]. pose proof (skip_ws_length r3) as Hr3.
    destruct (skip_ws r3) as [|d r4]; [done|].
    destruct (N.eq_dec d 44) as [->|].
    { pose proof (IHm r4 ltac:(simpl in *; lia)).
      by destruct (parse_members make_object fuel r4) as [[? ?]| |]. }
    destruct (N.eq_dec d 125) as [->|]; [done|].
    destruct d as [|p]; [done|]. do 7 (destruct p as [p|p|]; try done).
Qed.

(** The parse of a text ends: it gives a value or a syntax error. *)
Lemma parse_text_ends (t : text) : parse_text make_object t <> OutOfFuel.
Proof.
  unfold parse_text.
  pose proof (proj1 (descent_ends (2 * length t + 1)) t ltac:(lia)) as H.
  destruct (parse_value make_object (2 * length t + 1) t) as [[v rest]| |]; [|done..].
  cbn [and_then]. by destruct (skip_ws rest).
Qed.

End fuel.

End JSONFacts.


(** ** [Rectangle], [getJSON] and [fromJSON] *)

(** C7: the text [getJSON] makes of a plain data object whose properties
    are representable is read back by [fromJSON] as an object with the
    same own properties, in the same order and with the same values, whose
    prototype is [proto]; on the result a property of the object is found
    on it and any other property is looked up on [proto].  The members of
    an object are its own properties as it enumerates them. *)
Theorem fromJSON_getJSON {Prototype Value : Type}
    (Get_prototype : Prototype -> JSON.text -> option Value)
    (Object_prototype Array_prototype proto : Prototype)
    (ms : list (JSON.text * JSON.value)) :
  JSON.representable (JSON.JObject ms) = true ->
  JSON.enumerated (JSON.JObject ms) = true ->
  exists result : object,
    fromJSON Object_prototype Array_prototype proto (getJSON (JSON.JObject ms))
    = Return (Obj result)
    /\ data result = JSON.JObject ms
    /\ prototype result = proto
    /\ forall k : JSON.text,
        Get Get_prototype result k =
          match own_property ms k with
          | Some v => Some (inl v)
          | None => inr <$> Get_prototype proto k
          end.
Proof.
  intros Hr He. exists (mkObject (JSON.JObject ms) proto). split; [|done].
  unfold fromJSON, getJSON. by rewrite (JSONFacts.parse_stringify _ Hr He).
Qed.

Lemma fromJSON_getJSON_witness :
  JSON.representable (JSON.JObject circle_data) = true
  /\ JSON.enumerated (JSON.JObject circle_data) = true
  /\ exists result : object,
      fromJSON Object_prototype_example Array_prototype_example Circle_prototype
        (getJSON (JSON.JObject circle_data)) = Return (Obj result)
      /\ data result = JSON.JObject circle_data
      /\ prototype result = Circle_prototype
      /\ forall k : JSON.text,
          Get own_property result k =
            match own_property circle_data k with
            | Some v => Some (inl v)
            | None => inr <$> own_property Circle_prototype k
            end.
Proof.
  assert (JSON.representable (JSON.JObject circle_data) = true) as Hr
    by (vm_compute; reflexivity).
  assert (JSON.enumerated (JSON.JObject circle_data) = true) as He
    by (vm_compute; reflexivity).
  split; [exact Hr|]. split; [exact He|].
  exact (fromJSON_getJSON own_property Object_prototype_example Array_prototype_example
           Circle_prototype circle_data Hr He).
Defined.

(** The text of the example of the source, with the keys in the order of
    the object; the text of an object with a fraction, a letter outside
    Latin-1 and a surrogate pair; and two lookups on what [fromJSON] makes
    of the latter, one that the object answers and one that the prototype
    answers. *)
Example getJSON_height_width :
  getJSON (JSON.JObject [(JSON.code_units "height", number 10 0);
                         (JSON.code_units "width", number 20 0)])
  = JSON.code_units ("{" +:+ dquote +:+ "height" +:+ dquote +:+ ":10," +:+ dquote
                     +:+ "width" +:+ dquote +:+ ":20}")
  /\ getJSON (JSON.JObject circle_data)
     = JSON.code_units ("{" +:+ dquote +:+ "radius" +:+ dquote +:+ ":1.5," +:+ dquote
                        +:+ "name" +:+ dquote +:+ ":" +:+ dquote)
       ++ [960; 55357; 56832]%N
       ++ JSON.code_units (dquote +:+ "," +:+ dquote +:+ "tags" +:+ dquote
                           +:+ ":[true,null,0.1]}")
  /\ Get own_property (mkObject (JSON.JObject circle_data) Circle_prototype)
       (JSON.code_units "getArea") = Some (inr "function getArea")
  /\ Get (Value := string) own_property
       (mkObject (JSON.JObject circle_data) Circle_prototype)
       (JSON.code_units "radius") = Some (inl (number 15 (-1))).
Proof. repeat split; vm_compute; reflexivity. Qed.

(** [JSON.parse] gives an object its keys in the order of enumeration,
    the array indices first, whatever their order in the text; a key that
    comes twice keeps its first place and its last value. *)
Example parse_orders_keys :
  JSON.parse (JSON.code_units ("{" +:+ dquote +:+ "b" +:+ dquote +:+ ":1," +:+ dquote
                               +:+ "1" +:+ dquote +:+ ":2," +:+ dquote +:+ "b" +:+ dquote
                               +:+ ":3}"))
  = JSON.Parsed (JSON.JObject [(JSON.code_units "1", number 2 0);
                               (JSON.code_units "b", number 3 0)]).
Proof. vm_compute. reflexivity. Qed.

(** [fromJSON] returns or throws on every text: the fuel of the parse is
    enough. *)
Lemma fromJSON_ends {Prototype : Type} (Object_prototype Array_prototype proto : Prototype)
    (json : JSON.text) :
  fromJSON Object_prototype Array_prototype proto json <> OutOfFuel.
Proof.
  unfold fromJSON. pose proof (JSONFacts.parse_text_ends JSON.object_of json) as H.
  unfold JSON.parse. destruct (JSON.parse_text JSON.object_of json) as [v| |]; [|done..].
  by destruct v as [| | | | |].
Qed.

(** C8: [Rectangle(w, h)] returns an object whose [width] is [w], whose
    [height] is [h] and whose method returns the product of [w] and [h],
    also after the properties have been assigned to. *)
Theorem Rectangle_properties (w h : float) :
  width (Rectangle w h) = w
  /\ height (Rectangle w h) = h
  /\ getArea (Rectangle w h) tt = (w * h)%float
  /\ forall v : float,
      getArea (assign_width (Rectangle w h) v) tt = (w * h)%float
      /\ getArea (assign_height (Rectangle w h) v) tt = (w * h)%float.
Proof. repeat split. Qed.

Example Rectangle_10_20 :
  width (Rectangle 10 20) = 10%float /\ height (Rectangle 10 20) = 20%float
  /\ getArea (Rectangle 10 20) tt = 200%float.
Proof. repeat split. Qed.

(** * Further properties of the selector builder *)

(** ** The facade and the fate of a call *)

Lemma append_nil_l (s : string) : "" +:+ s = s.
Proof. reflexivity. Qed.

Lemma rendering_first_part c :
  Spec.stringify (Spec.add Spec.empty c) = decorate c.
Proof.
  destruct c; unfold Spec.stringify, Spec.part; simpl;
    rewrite ?append_nil_l, ?append_nil_r, ?append_assoc; reflexivity.
Qed.

(** X1: a leaf call of the facade never throws, whatever string it is
    given: it returns a new selector, after the selectors there are and
    without touching them, that stringifies to its argument with the
    punctuation of the category. *)
Theorem facade_returns (c : call) (h : heap) :
  exists o : Selector,
    facade c h = Normal (length h) (h ++ [o])
    /\ MySuperBaseElementSelector.stringify (length h) (h ++ [o])
       = Normal (decorate c) (h ++ [o]).
Proof.
  assert (exists o, effect c MySuperBaseElementSelector.constructor = inr o) as [o Ho]
    by (destruct c; simpl; eauto).
  exists o. rewrite facade_invoke, (invoke_effect _ _ _ (lookup_fresh h _)), Ho.
  rewrite insert_fresh. split; [done|].
  rewrite (stringify_this _ _ o (lookup_fresh h o)). f_equal.
  rewrite <- rendering_first_part. apply rendering_represents.
  by apply (effect_represents c _ o _ represents_constructor).
Qed.

(** X2: a part-adding call that throws leaves every selector as it was,
    the one it was called on included; a call that returns returns the
    selector it was called on and writes to no other selector. *)
Theorem call_outcome (h : heap) (this : loc) (c : call) :
  match invoke this c h with
  | Throw _ h' => h' = h
  | Normal l h' =>
      l = this /\ length h' = length h
      /\ forall l' : loc, l' <> this -> h' !! l' = h !! l'
  | Dangling => h !! this = None
  end.
Proof.
  destruct (h !! this) as [o|] eqn:Hthis.
  - rewrite (invoke_effect h this o Hthis). destruct (effect c o) as [e|o']; [done|].
    split; [done|]. split; [apply length_insert|].
    intros l' Hl'. by apply list_lookup_insert_ne.
  - by rewrite invoke_dangling.
Qed.

(** ** Which chains return *)

Lemma occurrences_none k cs :
  Forall (fun c => rank c <> k) cs -> occurrences k cs = 0%nat.
Proof.
  induction 1 as [|c cs Hc _ IH]; simpl; [done|].
  rewrite IH. by destruct (Z.eqb_spec (rank c) k).
Qed.

Lemma effect_single_twice c o o' :
  effect c o = inr o' -> stored c o -> repeatable c = true \/ rank c = 4.
Proof.
  destruct c; simpl; auto; intros He Hs; rewrite (nonempty_truthy _ Hs) in He;
    discriminate.
Qed.

(** After a call of a single-occurrence category has left its mark, a
    chain that returns has no further call of that category. *)
Lemma run_stored_none d cs : forall o o',
  stored d o -> rank d = 1 \/ rank d = 2 \/ rank d = 6 ->
  run cs o = (o', None) -> occurrences (rank d) cs = 0%nat.
Proof.
  induction cs as [|c cs IH]; intros o o' Hs Hd Hrun; simpl in *; [done|].
  destruct (effect c o) as [e|o1] eqn:Hc; [done|].
  rewrite (IH o1 o') by eauto using effect_keeps.
  destruct (Z.eqb_spec (rank c) (rank d)) as [Heq|]; [exfalso|done].
  assert (stored c o) as Hsc by (destruct c, d; simpl in *; try lia; done).
  destruct (effect_single_twice _ _ _ Hc Hsc) as [Hr|Hr];
    destruct c; simpl in *; try discriminate; lia.
Qed.

Lemma run_single_once d cs : forall o o',
  rank d = 2 \/ rank d = 6 ->
  run cs o = (o', None) -> (occurrences (rank d) cs <= 1)%nat.
Proof.
  induction cs as [|c cs IH]; intros o o' Hd Hrun; simpl in *; [lia|].
  destruct (effect c o) as [e|o1] eqn:Hc; [done|].
  destruct (Z.eqb_spec (rank c) (rank d)) as [Heq|]; [|by eapply IH].
  assert (stored d o1) as Hs.
  { assert (leaves_mark c) by (destruct c; simpl in *; try lia; done).
    pose proof (effect_stores c o o1 H Hc).
    destruct c, d; simpl in *; try lia; done. }
  rewrite (run_stored_none d cs o1 o' Hs) by (tauto || done). lia.
Qed.

Lemma run_single_parts c cs o' :
  run (c :: cs) MySuperBaseElementSelector.constructor = (o', None) ->
  single_parts_once c cs.
Proof.
  intros Hr. split; [|split].
  - simpl in Hr. destruct (effect c _) as [e|o1] eqn:Hc; [done|].
    apply occurrences_none.
    eapply Forall_impl; [apply (run_no_element cs o1 o')|]; try done.
    + destruct (effect_order_grows _ _ _ Hc) as [x ->]. done.
    + simpl. intros; lia.
  - apply (run_single_once (Id "") (c :: cs) MySuperBaseElementSelector.constructor o');
      [by left | done].
  - apply (run_single_once (PseudoElement "") (c :: cs)
             MySuperBaseElementSelector.constructor o'); [by right | done].
Qed.

(** X3: in a chain that returns, [element] is called at most as the first
    call, [id] at most once and [pseudoElement] at most once. *)
Theorem returned_chain_single_parts c cs (h h' : heap) (l : loc) :
  build c cs h = Normal l h' -> single_parts_once c cs.
Proof.
  rewrite build_run. intros Hrun.
  destruct (run (c :: cs) _) as [o' [e|]] eqn:Hr; [done|].
  by apply (run_single_parts c cs o').
Qed.

Lemma returned_chain_single_parts_witness :
  build (Id "main") [Class "a"; PseudoElement "after"] [] =
    Normal 0%nat
      [mkSelector (Builder.mk "" "#main" [".a"] "" [] "::after" [])
                  [Onumber 2; Oarray Builder.Kclass; Ostring "::after"]]
  /\ single_parts_once (Id "main") [Class "a"; PseudoElement "after"].
Proof.
  split; [reflexivity|].
  exact (returned_chain_single_parts (Id "main") [Class "a"; PseudoElement "after"]
           [] _ 0%nat eq_refl).
Defined.

Lemma StringToNumber_bracket s : JS.StringToNumber ("[" +:+ s) = JS.NaN.
Proof.
  change ("[" +:+ s) with (String "[" s).
  unfold JS.StringToNumber. simpl list_ascii_of_string.
  destruct (trim_cons "[" (list_ascii_of_string s) eq_refl) as [l' ->].
  reflexivity.
Qed.

Lemma join_colon sep v more :
  exists t, JS.join sep ((":" +:+ v) :: more) = ":" +:+ t.
Proof.
  destruct more as [|x more]; [by exists v|].
  exists (v +:+ sep +:+ JS.join sep (x :: more)). reflexivity.
Qed.

Lemma passes_gates_gate o k : passes_gates o -> 2 <= k -> gate o k = false.
Proof.
  unfold passes_gates. intros Ho Hk.
  destruct (order o) as [|[n|s|key] rest] eqn:Horder; [done|..].
  - apply (gate_first_number o n k rest Horder). lia.
  - destruct Ho as [t [-> | ->]].
    + unfold gate, order_gt. rewrite Horder.
      change ((Ostring ("[" +:+ t) :: rest) !! 0%nat) with (Some (Ostring ("[" +:+ t))).
      cbv beta iota. unfold order_value, JS.ToNumber.
      rewrite (StringToNumber_bracket t). apply andb_false_r.
    + by apply (gate_first_colon o t rest k).
  - destruct key; try done. destruct Ho as (v & more & Hpc).
    unfold gate, order_gt. rewrite Horder.
    change ((Oarray Builder.KpseudoClass :: rest) !! 0%nat)
      with (Some (Oarray Builder.KpseudoClass)).
    cbv beta iota. unfold order_value, Builder.get, JS.ToNumber. rewrite Hpc.
    destruct (join_colon "," v more) as [t ->].
    rewrite (StringToNumber_colon t). apply andb_false_r.
Qed.

Lemma effect_pseudoClass_grows c o o' :
  effect c o = inr o' ->
  exists tail, Builder.pseudoClass (builder o')
               = Builder.pseudoClass (builder o) ++ tail.
Proof.
  destruct c; simpl; case_tests discriminate; intros [= <-]; simpl;
    solve [by exists [] ; rewrite app_nil_r | eauto].
Qed.

Lemma effect_passes_gates c o o' :
  passes_gates o -> effect c o = inr o' -> passes_gates o'.
Proof.
  unfold passes_gates. intros Ho Hc.
  destruct (effect_order_grows _ _ _ Hc) as [x ->].
  destruct (effect_pseudoClass_grows _ _ _ Hc) as [tail ->].
  destruct (order o) as [|[n|s|key] rest]; [done|..]; simpl; try done.
  destruct key; try done. destruct Ho as (v & more & ->). by exists v, (more ++ tail).
Qed.

(** Behind a first entry that passes every gate, a chain returns as soon
    as it has no [element] call and calls [id] and [pseudoElement] at most
    once, counting the ones already stored. *)
Lemma run_accepts cs : forall o,
  passes_gates o ->
  occurrences 1 cs = 0%nat ->
  (occurrences 2 cs + (if String.eqb (Builder.id (builder o)) "" then 0 else 1) <= 1)%nat ->
  (occurrences 6 cs
   + (if String.eqb (Builder.pseudoElement (builder o)) "" then 0 else 1) <= 1)%nat ->
  exists o', run cs o = (o', None).
Proof.
  induction cs as [|c cs IH]; intros o Ho H1 H2 H6; simpl; [eauto|].
  assert (exists o1, effect c o = inr o1
            /\ Builder.id (builder o1)
               = (if (rank c =? 2) then decorate c else Builder.id (builder o))
            /\ Builder.pseudoElement (builder o1)
               = (if (rank c =? 6) then decorate c
                  else Builder.pseudoElement (builder o))) as (o1 & Hc & Hid & Hpe).
  { destruct c; simpl in *; try lia;
      rewrite ?(passes_gates_gate o _ Ho) by lia;
      try (destruct (String.eqb (Builder.id (builder o)) ""); [|lia]);
      try (destruct (String.eqb (Builder.pseudoElement (builder o)) ""); [|lia]);
      simpl; eauto. }
  rewrite Hc. apply IH.
  - by eapply effect_passes_gates.
  - simpl in H1. destruct (rank c =? 1); lia.
  - rewrite Hid. destruct c; simpl in *; lia.
  - rewrite Hpe. destruct c; simpl in *; lia.
Qed.

Lemma build_accepts c cs (h : heap) :
  rank c <> 3 -> single_parts_once c cs -> exists l h', build c cs h = Normal l h'.
Proof.
  intros Hc (H1 & H2 & H6). rewrite build_run. simpl run.
  assert (exists o1, effect c MySuperBaseElementSelector.constructor = inr o1
            /\ passes_gates o1
            /\ Builder.id (builder o1) = (if (rank c =? 2) then decorate c else "")
            /\ Builder.pseudoElement (builder o1)
               = (if (rank c =? 6) then decorate c else "")) as (o1 & -> & Ho & Hid & Hpe).
  { destruct c; simpl in *; try done; eexists; (split; [reflexivity|]);
      (split; [|done]); unfold passes_gates; simpl; try lia; eauto. }
  destruct (run_accepts cs o1 Ho H1) as [o' ->]; [| |eauto].
  - rewrite Hid. destruct c; simpl in *; lia.
  - rewrite Hpe. destruct c; simpl in *; lia.
Qed.

(** X4: after [element] or [id] as the first call, the later calls may
    come in any order: the chain returns exactly when it has no further
    [element] call, at most one [id] call and at most one [pseudoElement]
    call. *)
Theorem chain_after_element_or_id c cs (h : heap) :
  rank c <= 2 ->
  (exists l h', build c cs h = Normal l h') <-> single_parts_once c cs.
Proof.
  intros Hc. split.
  - intros (l & h' & Hb). rewrite build_run in Hb.
    destruct (run (c :: cs) _) as [o' [e|]] eqn:Hr; [done|].
    by apply (run_single_parts c cs o').
  - apply build_accepts. lia.
Qed.

Lemma chain_after_element_or_id_witness :
  (exists l h',
      build (Element "a") [PseudoElement "after"; Class "b"; Id "i"; Attr "x"] []
      = Normal l h')
  <-> single_parts_once (Element "a") [PseudoElement "after"; Class "b"; Id "i"; Attr "x"].
Proof.
  apply (chain_after_element_or_id (Element "a")). simpl. lia.
Defined.

(** X5: after [attr], [pseudoClass] or [pseudoElement] as the first call
    no later call throws the wrong-order error but [element]: what the
    first call leaves on [order] is no number, so the chain returns exactly
    when it has no [element] call, at most one [id] call and at most one
    [pseudoElement] call. *)
Theorem chain_after_attr_or_pseudo c cs (h : heap) :
  4 <= rank c ->
  (exists l h', build c cs h = Normal l h') <-> single_parts_once c cs.
Proof.
  intros Hc. split.
  - intros (l & h' & Hb). rewrite build_run in Hb.
    destruct (run (c :: cs) _) as [o' [e|]] eqn:Hr; [done|].
    by apply (run_single_parts c cs o').
  - apply build_accepts. lia.
Qed.

Lemma chain_after_attr_or_pseudo_witness :
  (exists l h',
      build (PseudoClass "hover") [Attr "title"; Class "b"; Id "i"] [] = Normal l h')
  <-> single_parts_once (PseudoClass "hover") [Attr "title"; Class "b"; Id "i"].
Proof.
  apply (chain_after_attr_or_pseudo (PseudoClass "hover")). simpl. lia.
Defined.

(** ** Chains in the order of a selector *)

Lemma parts_snoc before l v :
  Spec.parts before (l ++ [v]) = Spec.parts before l +:+ before +:+ v.
Proof.
  induction l as [|s l IH]; simpl.
  - by rewrite append_nil_r, append_nil_l.
  - by rewrite IH, !append_assoc.
Qed.

(** Adding a part behind the parts there are puts its decorated argument
    at the end of the rendering. *)
Lemma add_at_end prev p c :
  nothing_above prev p ->
  (prev <? rank c) || ((prev =? rank c) && repeatable c) = true ->
  Spec.stringify (Spec.add p c) = Spec.stringify p +:+ decorate c
  /\ nothing_above (rank c) (Spec.add p c).
Proof.
  intros (He & Hi & Hc & Ha & Hpc & Hpe) Hprev.
  assert (prev <= rank c) as Hle by lia.
  assert (repeatable c = false -> prev < rank c) as Hlt.
  { intros Hr. rewrite Hr, andb_false_r, orb_false_r in Hprev. lia. }
  destruct p as [e i cl a pc pe]; simpl in *.
  destruct c; simpl in *; unfold nothing_above, Spec.stringify; simpl;
    rewrite ?He, ?Hi, ?Hc, ?Ha, ?Hpc, ?Hpe by (try apply Hlt; try done; lia);
    (split; [|repeat split; intros; try done; lia]);
    unfold Spec.part; simpl;
    rewrite ?parts_snoc, ?append_nil_l, ?append_nil_r, ?append_assoc;
    rewrite ?append_nil_l, ?append_nil_r; reflexivity.
Qed.

Lemma canonical_rendering cs : forall prev p,
  nothing_above prev p -> canonical prev cs = true ->
  Spec.stringify (fold_left Spec.add cs p)
  = Spec.stringify p +:+ concat_strings (map decorate cs).
Proof.
  induction cs as [|c cs IH]; intros prev p Hp Hcs; simpl in *.
  - by rewrite append_nil_r.
  - apply andb_true_iff in Hcs as [Hc Hcs].
    destruct (add_at_end prev p c Hp Hc) as [Hs Hp'].
    by rewrite (IH (rank c) _ Hp' Hcs), Hs, append_assoc.
Qed.

(** X6: a chain in the order of a selector (ranks that never decrease, of
    which only classes and pseudo-classes repeat) that returns stringifies
    to the decorated arguments of its calls, in the order of the calls. *)
Theorem canonical_chain_stringify c cs (h h' : heap) (l : loc) :
  canonical 0 (c :: cs) = true ->
  build c cs h = Normal l h' ->
  MySuperBaseElementSelector.stringify l h'
  = Normal (concat_strings (map decorate (c :: cs))) h'.
Proof.
  intros Hcs. rewrite build_run. intros Hrun.
  destruct (run (c :: cs) _) as [o' [e|]] eqn:Hr; [done|].
  injection Hrun as <- <-.
  rewrite (stringify_this _ _ o') by apply lookup_fresh. f_equal.
  rewrite (rendering_represents o' (fold_left Spec.add (c :: cs) Spec.empty))
    by (by apply (run_represents (c :: cs) _ o' _ represents_constructor)).
  rewrite (canonical_rendering (c :: cs) 0 Spec.empty); [done | | done].
  by repeat split.
Qed.

Lemma canonical_chain_stringify_witness :
  canonical 0 [Element "a"; Class "b"; Class "c"; PseudoClass "hover"] = true
  /\ build (Element "a") [Class "b"; Class "c"; PseudoClass "hover"] [] =
    Normal 0%nat
      [mkSelector (Builder.mk "a" "" [".b"; ".c"] "" [":hover"] "" [])
         [Onumber 1; Oarray Builder.Kclass; Oarray Builder.Kclass;
          Oarray Builder.KpseudoClass]]
  /\ MySuperBaseElementSelector.stringify 0%nat
       [mkSelector (Builder.mk "a" "" [".b"; ".c"] "" [":hover"] "" [])
         [Onumber 1; Oarray Builder.Kclass; Oarray Builder.Kclass;
          Oarray Builder.KpseudoClass]]
     = Normal "a.b.c:hover"
       [mkSelector (Builder.mk "a" "" [".b"; ".c"] "" [":hover"] "" [])
         [Onumber 1; Oarray Builder.Kclass; Oarray Builder.Kclass;
          Oarray Builder.KpseudoClass]].
Proof.
  split; [reflexivity|]. split; [reflexivity|].
  exact (canonical_chain_stringify (Element "a")
           [Class "b"; Class "c"; PseudoClass "hover"] [] _ 0%nat eq_refl eq_refl).
Defined.

(** ** Combination on a selector that is in use *)

Lemma rendering_combiner o :
  Builder.combiner (builder o) <> [] ->
  rendering o = JS.join " " (Builder.combiner (builder o)).
Proof. unfold rendering. by destruct (Builder.combiner (builder o)). Qed.

(** X7: [combine] called on a selector appends to what the selector has
    combined before, and from then on the selector stringifies to all its
    combined strings with one space between them; the parts the selector
    holds are not rendered, and no other selector is written to. *)
Theorem combine_accumulates (h : heap) (this s1 s2 : loc) (c : string)
    (o o1 o2 : Selector) :
  h !! this = Some o -> h !! s1 = Some o1 -> h !! s2 = Some o2 -> this <> s2 ->
  exists h' : heap,
    (s ← MySuperBaseElementSelector.combine this s1 c s2;
     MySuperBaseElementSelector.stringify s) h
    = Normal (JS.join " " (Builder.combiner (builder o) ++ [rendering o1; c; rendering o2]))
        h'
    /\ forall l : loc, l <> this -> h' !! l = h !! l.
Proof.
  intros Hthis H1 H2 Hne. eexists. unfold mbind at 1, M_bind at 1.
  rewrite (combine_this h this s1 s2 c o o1 Hthis H1). cbv zeta.
  rewrite list_lookup_insert_ne, H2 by done.
  rewrite (stringify_this _ _ _ (lookup_updated h this o Hthis _)).
  split.
  - f_equal. rewrite rendering_combiner; simpl.
    + by rewrite <- !app_assoc.
    + by destruct (Builder.combiner (builder o)).
  - intros l Hl. by apply list_lookup_insert_ne.
Qed.

Lemma combine_accumulates_witness :
  exists h' : heap,
    (s ← MySuperBaseElementSelector.combine 0%nat 1%nat ">" 1%nat;
     MySuperBaseElementSelector.stringify s)
      [mkSelector (Builder.mk "p" "" [] "" [] "" ["a"; "+"; "b"]) [Onumber 1];
       mkSelector (Builder.mk "td" "" [] "" [] "" []) [Onumber 1]]
    = Normal "a + b td > td" h'
    /\ forall l : loc, l <> 0%nat ->
       h' !! l = [mkSelector (Builder.mk "p" "" [] "" [] "" ["a"; "+"; "b"]) [Onumber 1];
                  mkSelector (Builder.mk "td" "" [] "" [] "" []) [Onumber 1]] !! l.
Proof.
  exact (combine_accumulates
           [mkSelector (Builder.mk "p" "" [] "" [] "" ["a"; "+"; "b"]) [Onumber 1];
            mkSelector (Builder.mk "td" "" [] "" [] "" []) [Onumber 1]]
           0%nat 1%nat 1%nat ">" _ _ _ eq_refl eq_refl eq_refl (Nat.neq_0_succ 0)).
Defined.

Lemma effect_combiner c o o' :
  effect c o = inr o' -> Builder.combiner (builder o') = Builder.combiner (builder o).
Proof. destruct c; simpl; case_tests discriminate; by intros [= <-]. Qed.

(** X8: parts added to a selector that holds a combination never show:
    whatever part-adding calls are made on it, returning or throwing, it
    stringifies to the same string as before. *)
Theorem parts_after_combine_hidden (this : loc) (cs : list call) :
  forall (h : heap) (o : Selector),
    h !! this = Some o -> Builder.combiner (builder o) <> [] ->
    MySuperBaseElementSelector.stringify this (perform_all (map (Add this) cs) h)
    = Normal (JS.join " " (Builder.combiner (builder o)))
        (perform_all (map (Add this) cs) h).
Proof.
  induction cs as [|c cs IH]; intros h o Hthis Hc; simpl.
  - by rewrite (stringify_this h this o Hthis), rendering_combiner.
  - rewrite (invoke_effect h this o Hthis).
    destruct (effect c o) as [e|o1] eqn:He; simpl.
    + by apply IH.
    + rewrite <- (effect_combiner c o o1 He).
      apply IH; [by eapply lookup_updated | by rewrite (effect_combiner c o o1 He)].
Qed.

Lemma parts_after_combine_hidden_witness :
  MySuperBaseElementSelector.stringify 0%nat
    (perform_all (map (Add 0%nat) [Class "x"; Element "y"])
       [mkSelector (Builder.mk "" "" [] "" [] "" ["a"; "+"; "b"]) []])
  = Normal "a + b"
      (perform_all (map (Add 0%nat) [Class "x"; Element "y"])
         [mkSelector (Builder.mk "" "" [] "" [] "" ["a"; "+"; "b"]) []]).
Proof.
  refine (parts_after_combine_hidden 0%nat [Class "x"; Element "y"]
            [mkSelector (Builder.mk "" "" [] "" [] "" ["a"; "+"; "b"]) []] _ eq_refl _).
  simpl. discriminate.
Defined.

(** X9: a selector combined with itself is read twice, before and after
    the first two pushes: on a selector that holds no combination and
    stringifies to [r], [s.combine(s, c, s)] makes it stringify to [r], the
    combinator, and [r] with the combinator once more. *)
Theorem combine_with_itself (h : heap) (this : loc) (c : string) (o : Selector) :
  h !! this = Some o -> Builder.combiner (builder o) = [] ->
  exists h' : heap,
    (s ← MySuperBaseElementSelector.combine this this c this;
     MySuperBaseElementSelector.stringify s) h
    = Normal (rendering o +:+ " " +:+ c +:+ " " +:+ (rendering o +:+ " " +:+ c)) h'.
Proof.
  intros Hthis Hc. eexists. unfold mbind at 1, M_bind at 1.
  rewrite (combine_this h this this this c o o Hthis Hthis). cbv zeta.
  rewrite (lookup_updated h this o Hthis).
  rewrite (stringify_this _ _ _ (lookup_updated h this o Hthis _)).
  f_equal. unfold rendering at 1 2. simpl. by rewrite Hc.
Qed.

Lemma combine_with_itself_witness :
  exists h' : heap,
    (s ← MySuperBaseElementSelector.combine 0%nat 0%nat "~" 0%nat;
     MySuperBaseElementSelector.stringify s)
      [mkSelector (Builder.mk "tr" "" [] "" [] "" []) [Onumber 1]]
    = Normal "tr ~ tr ~" h'.
Proof.
  exact (combine_with_itself [mkSelector (Builder.mk "tr" "" [] "" [] "" []) [Onumber 1]]
           0%nat "~" _ eq_refl eq_refl).
Defined.

(** ** [getJSON] and [fromJSON] on every kind of value *)

(** X10: the text [getJSON] makes of a representable value, its objects
    with their members in the order of enumeration, comes back through
    [fromJSON] according to the kind of the value: an object or an array
    comes back with the same data and the prototype [proto]; null makes
    [Object.setPrototypeOf] throw a type error; a boolean, a number or a
    string comes back as it is, without a prototype of its own. *)
Theorem fromJSON_getJSON_any {Prototype : Type}
    (Object_prototype Array_prototype proto : Prototype) (v : JSON.value) :
  JSON.representable v = true ->
  JSON.enumerated v = true ->
  fromJSON Object_prototype Array_prototype proto (getJSON v)
  = match v with
    | JSON.JNull => ThrowTypeError
    | JSON.JArray _ | JSON.JObject _ => Return (Obj (mkObject v proto))
    | _ => Return (Primitive v)
    end.
Proof.
  intros Hr He. unfold fromJSON, getJSON. rewrite (JSONFacts.parse_stringify v Hr He).
  by destruct v.
Qed.

Lemma fromJSON_getJSON_any_witness :
  JSON.representable (JSON.JArray [number 1 0; number 25 (-1); JSON.JObject circle_data])
    = true
  /\ JSON.enumerated (JSON.JArray [number 1 0; number 25 (-1); JSON.JObject circle_data])
    = true
  /\ fromJSON Object_prototype_example Array_prototype_example Circle_prototype
       (getJSON (JSON.JArray [number 1 0; number 25 (-1); JSON.JObject circle_data]))
     = Return (Obj (mkObject
         (JSON.JArray [number 1 0; number 25 (-1); JSON.JObject circle_data])
         Circle_prototype)).
Proof.
  assert (JSON.representable
            (JSON.JArray [number 1 0; number 25 (-1); JSON.JObject circle_data]) = true)
    as Hr by (vm_compute; reflexivity).
  assert (JSON.enumerated
            (JSON.JArray [number 1 0; number 25 (-1); JSON.JObject circle_data]) = true)
    as He by (vm_compute; reflexivity).
  split; [exact Hr|]. split; [exact He|].
  exact (fromJSON_getJSON_any Object_prototype_example Array_prototype_example
           Circle_prototype _ Hr He).
Defined.

(** X11: [getJSON] loses nothing: two representable values with the same
    text are the same value. *)
Theorem getJSON_injective (v1 v2 : JSON.value) :
  JSON.representable v1 = true -> JSON.representable v2 = true ->
  getJSON v1 = getJSON v2 -> v1 = v2.
Proof.
  intros H1 H2 Heq.
  pose proof (JSONFacts.parse_text_stringify JSON.JObject v1 H1 (JSONFacts.kept_members v1))
    as P1.
  pose proof (JSONFacts.parse_text_stringify JSON.JObject v2 H2 (JSONFacts.kept_members v2))
    as P2.
  unfold getJSON in Heq. rewrite Heq, P2 in P1. by injection P1.
Qed.

Lemma getJSON_injective_witness :
  JSON.JObject [(JSON.code_units "width", number 10 0)]
  = JSON.JObject [(JSON.code_units "width", number 10 0)].
Proof.
  assert (JSON.representable (JSON.JObject [(JSON.code_units "width", number 10 0)]) = true)
    as Hr by (vm_compute; reflexivity).
  exact (getJSON_injective (JSON.JObject [(JSON.code_units "width", number 10 0)])
           (JSON.JObject [(JSON.code_units "width", number 10 0)]) Hr Hr eq_refl).
Defined.

(** ** The record of the calls *)

Lemma effect_pushes c o o' : effect c o = inr o' -> order o' = order o ++ [pushed c].
Proof. destruct c; simpl; case_tests discriminate; by intros [= <-]. Qed.

Lemma run_pushes cs : forall o o',
  run cs o = (o', None) -> order o' = order o ++ map pushed cs.
Proof.
  induction cs as [|c cs IH]; intros o o' Hrun; simpl in *.
  - injection Hrun as <-. by rewrite app_nil_r.
  - destruct (effect c o) as [e|o1] eqn:Hc; [done|].
    rewrite (IH o1 o' Hrun), (effect_pushes c o o1 Hc). by rewrite <- app_assoc.
Qed.

(** X12: [order] records the calls that returned, one entry a call and in
    the order of the calls; so its first entry, the one every gate reads,
    is what the first call of the chain pushed, whatever came after. *)
Theorem order_records_calls c cs (h h' : heap) (l : loc) :
  build c cs h = Normal l h' ->
  exists o' : Selector,
    h' !! l = Some o' /\ order o' = map pushed (c :: cs)
    /\ order o' !! 0%nat = Some (pushed c).
Proof.
  rewrite build_run. intros Hrun.
  destruct (run (c :: cs) _) as [o' [e|]] eqn:Hr; [done|].
  injection Hrun as <- <-. exists o'. split; [apply lookup_fresh|].
  pose proof (run_pushes (c :: cs) _ o' Hr) as Ho. simpl in Ho.
  by rewrite Ho.
Qed.

Lemma order_records_calls_witness :
  build (Element "a") [Class "b"] [] =
    Normal 0%nat
      [mkSelector (Builder.mk "a" "" [".b"] "" [] "" []) [Onumber 1; Oarray Builder.Kclass]]
  /\ exists o' : Selector,
      [mkSelector (Builder.mk "a" "" [".b"] "" [] "" []) [Onumber 1; Oarray Builder.Kclass]]
        !! 0%nat = Some o'
      /\ order o' = map pushed [Element "a"; Class "b"]
      /\ order o' !! 0%nat = Some (pushed (Element "a")).
Proof.
  split; [reflexivity|].
  exact (order_records_calls (Element "a") [Class "b"] [] _ 0%nat eq_refl).
Defined.
